(** * Numerical discussion tree: the discussions service

    A shallow embedding of the [DiscussionsService] class of
    src/discussions (the service and its jest suite), together with the
    entities and DTOs it uses, and the properties of its three operations:
    [createDiscussion], [addOperation] and [getAllDiscussions].  The
    controller in front of the service, the application module, and the
    users, auth and browser-side code of the implementation guide follow. *)

From Stdlib Require Import Floats ZArith.
From stdpp Require Import gmap strings pretty list fin_maps relations.

(** ** Entities (users/entities/user.entity.ts,
       discussions/entities/discussion-node.entity.ts) *)

(** A TypeScript [number] is an IEEE 754 binary64 value; [+], [-], [*], [/]
    and [===] on numbers are the binary64 operations. *)
Definition number : Type := float.
Bind Scope float_scope with number.

(** [enum Operation]: a string enum, so at run time an operation is a string
    and the [switch] of [calculateResult] compares strings. *)
Definition Operation : Type := string.
Definition ADD : Operation := "add".
Definition SUBTRACT : Operation := "subtract".
Definition MULTIPLY : Operation := "multiply".
Definition DIVIDE : Operation := "divide".

Module User.
Record t : Type := mk {
  id : string;
  username : string;
  password : string;
  createdAt : Z
}.
End User.

(** The columns of [DiscussionNode], and the [author] relation that
    [getAllDiscussions] asks the repository to load.  [null] is [None]. *)
Record DiscussionNode : Type := mkNode {
  id : string;
  value : number;
  operation : option Operation;
  operand : option number;
  parentId : option string;
  author : option User.t;
  authorId : string;
  createdAt : Z
}.

(** ** DTOs (discussions/dto) *)

Module CreateDiscussionDto.
Record t : Type := mk { startingNumber : number }.
End CreateDiscussionDto.

Module AddOperationDto.
Record t : Type := mk {
  parentId : string;
  operation : Operation;
  operand : number
}.
End AddOperationDto.

(** ** Exceptions thrown by the service (@nestjs/common) *)

Inductive HttpException : Type :=
  | NotFoundException (message : string)
  | BadRequestException (message : string).

(** The two failures of the service: InvalidOperation is the bad-request
    exception, NotFound the not-found exception, whatever the message. *)
Definition InvalidOperation {A} (r : HttpException + A) : Prop :=
  ∃ message, r = inl (BadRequestException message).

Definition NotFound {A} (r : HttpException + A) : Prop :=
  ∃ message, r = inl (NotFoundException message).

(** ** The repository

    The service reaches the store through the [Repository<DiscussionNode>]
    that TypeORM injects.  Its state is the table's rows in insertion order.
    What the database engine decides on its own is a parameter: the uuid
    given to a new row, the timestamp of its [createdAt] column, and the
    arrangement of the rows it answers to
    [find({ relations: ['author'], order: { createdAt: 'DESC' } })]. *)

Record Database : Type := mkDatabase {
  uuid : list DiscussionNode → string;
  now : list DiscussionNode → Z;
  find_createdAt_DESC : list DiscussionNode → list DiscussionNode
}.

(** What [repository.create({...})] receives: the entity before it is saved. *)
Record DeepPartial : Type := mkPartial {
  p_value : number;
  p_operation : option Operation;
  p_operand : option number;
  p_parentId : option string;
  p_authorId : string
}.

(** A service method runs against the rows; it returns a result or throws,
    and leaves the rows as its calls to [save] made them. *)
Definition Service (A : Type) : Type :=
  list DiscussionNode → (HttpException + A) * list DiscussionNode.

Definition ret {A} (a : A) : Service A := λ rows, (inr a, rows).

Definition throw {A} (e : HttpException) : Service A := λ rows, (inl e, rows).

Definition bind {A B} (m : Service A) (k : A → Service B) : Service B :=
  λ rows,
    match m rows with
    | (inl e, rows') => (inl e, rows')
    | (inr a, rows') => k a rows'
    end.

Definition lift {A} (r : HttpException + A) : Service A := λ rows, (r, rows).

Notation "'let*' x ':=' m 'in' k" := (bind m (λ x, k))
  (at level 10, x name, m at level 100, k at level 200, only parsing).

Section Repository.
Context (db : Database).

(** [repository.create(entityLike)] builds the entity and touches no row. *)
Definition create (entityLike : DeepPartial) : DeepPartial := entityLike.

(** Modelled from the spec: the store's insert behind [repository.save],
    "insert(nodeAttributes) -> Node (assigns id and creation timestamp)";
    the row is appended and returned. *)
Definition save (entity : DeepPartial) : Service DiscussionNode :=
  λ rows,
    let node :=
      {| id := uuid db rows;
         value := p_value entity;
         operation := p_operation entity;
         operand := p_operand entity;
         parentId := p_parentId entity;
         author := None;
         authorId := p_authorId entity;
         createdAt := now db rows |} in
    (inr node, rows ++ [node]).

(** Modelled from the spec: the store's lookup behind
    [repository.findOne({ where: { id } })], "findById(id) -> Node | absent";
    [null] is [None]. *)
Definition findOne (where_id : string) : Service (option DiscussionNode) :=
  λ rows, (inr (List.find (λ n, bool_decide (id n = where_id)) rows), rows).

(** Modelled from the spec: the store's listing behind [repository.find],
    "listAll() -> sequence of Node", in the order the database answers. *)
Definition find : Service (list DiscussionNode) :=
  λ rows, (inr (find_createdAt_DESC db rows), rows).
End Repository.

(** ** DiscussionsService *)

(** [calculateResult]: the [switch] over the operation, with its two [throw]s. *)
Definition calculateResult (leftValue : number) (operation : Operation)
    (rightValue : number) : HttpException + number :=
  if decide (operation = ADD) then inr (leftValue + rightValue)%float
  else if decide (operation = SUBTRACT) then inr (leftValue - rightValue)%float
  else if decide (operation = MULTIPLY) then inr (leftValue * rightValue)%float
  else if decide (operation = DIVIDE) then
    if (rightValue =? 0)%float
    then inl (BadRequestException "Division by zero is not allowed")
    else inr (leftValue / rightValue)%float
  else inl (BadRequestException "Invalid operation").

Section DiscussionsService.
Context (db : Database).

Definition createDiscussion (userId : string)
    (createDiscussionDto : CreateDiscussionDto.t) : Service DiscussionNode :=
  let node :=
    create {| p_value := CreateDiscussionDto.startingNumber createDiscussionDto;
              p_operation := None;
              p_operand := None;
              p_parentId := None;
              p_authorId := userId |} in
  save db node.

Definition addOperation (userId : string)
    (addOperationDto : AddOperationDto.t) : Service DiscussionNode :=
  let* found := findOne (AddOperationDto.parentId addOperationDto) in
  match found with
  | None => throw (NotFoundException "Parent node not found")
  | Some parent =>
      let* result :=
        lift (calculateResult (value parent)
                (AddOperationDto.operation addOperationDto)
                (AddOperationDto.operand addOperationDto)) in
      let node :=
        create {| p_value := result;
                  p_operation := Some (AddOperationDto.operation addOperationDto);
                  p_operand := Some (AddOperationDto.operand addOperationDto);
                  p_parentId := Some (id parent);
                  p_authorId := userId |} in
      save db node
  end.
End DiscussionsService.

(** ** Forest reconstruction ([getAllDiscussions])

    [type TreeNode = DiscussionNode & { children: TreeNode[] }].  The tree
    nodes are mutable objects that [nodeMap], the [children] arrays and
    [rootNodes] share by reference.  Every object the second pass reaches is
    the value of [nodeMap] at some key, and after the first pass each key
    holds one object for good, so a reference is modelled by the key. *)

Abbreviation ref := string (only parsing).

Record TreeNode : Type := mkTreeNode {
  node : DiscussionNode;       (* the copied columns, [...node] *)
  children : list ref
}.

(** The objects ([nodeMap]) and the array the method returns ([rootNodes]). *)
Record Forest : Type := mkForest {
  nodeMap : gmap ref TreeNode;
  rootNodes : list ref
}.

(** [array.forEach(callback)] with the state the callback mutates threaded
    through. *)
Definition forEach {A St : Type} (callback : A → St → St) (array : list A)
    (s : St) : St :=
  fold_left (λ s a, callback a s) array s.

(** First callback: [nodeMap.set(node.id, { ...node, children: [] })]. *)
Definition set_node (n : DiscussionNode) (m : gmap ref TreeNode) : gmap ref TreeNode :=
  <[id n := {| node := n; children := [] |}]> m.

(** Second callback.  [currentNode] is [nodeMap.get(node.id)!], the object at
    key [node.id]; the test is on [node.parentId], the entry being visited. *)
Definition link (n : DiscussionNode) (f : Forest) : Forest :=
  let currentNode : ref := id n in
  match parentId n with
  | None =>
      {| nodeMap := nodeMap f; rootNodes := rootNodes f ++ [currentNode] |}
  | Some pid =>
      match nodeMap f !! pid with
      | Some parent =>
          {| nodeMap :=
               <[pid := {| node := node parent;
                           children := children parent ++ [currentNode] |}]>
                 (nodeMap f);
             rootNodes := rootNodes f |}
      | None => f
      end
  end.

Definition buildForest (allNodes : list DiscussionNode) : Forest :=
  let nodeMap := forEach set_node allNodes ∅ in
  forEach link allNodes {| nodeMap := nodeMap; rootNodes := [] |}.

Section GetAllDiscussions.
Context (db : Database).

Definition getAllDiscussions : Service Forest :=
  let* allNodes := find db in
  ret (buildForest allNodes).
End GetAllDiscussions.

(** *** Reading the returned object graph *)

(** The objects one reaches from [rootNodes] through [children]. *)
Inductive reachable (f : Forest) : ref → Prop :=
  | reachable_root r :
      r ∈ rootNodes f → reachable f r
  | reachable_child p t c :
      reachable f p → nodeMap f !! p = Some t → c ∈ children t →
      reachable f c.

(** One step down: [c] is in the [children] array of the object at [p]. *)
Definition child_edge (m : gmap ref TreeNode) (p c : ref) : Prop :=
  ∃ t, m !! p = Some t ∧ c ∈ children t.

(** A node is in the forest when a reachable object carries its columns. *)
Definition in_forest (f : Forest) (n : DiscussionNode) : Prop :=
  ∃ r t, reachable f r ∧ nodeMap f !! r = Some t ∧ node t = n.

(** A node is absent from the forest when the object at its id is not
    reachable and no reachable object carries its columns. *)
Definition absent (f : Forest) (n : DiscussionNode) : Prop :=
  ¬ reachable f (id n) ∧ ¬ in_forest f n.

Definition deref (f : Forest) (rs : list ref) : list DiscussionNode :=
  omap (λ r, node <$> nodeMap f !! r) rs.

Definition root_nodes (f : Forest) : list DiscussionNode :=
  deref f (rootNodes f).

Definition child_nodes (f : Forest) (t : TreeNode) : list DiscussionNode :=
  deref f (children t).

Definition is_root (f : Forest) (n : DiscussionNode) : Prop :=
  n ∈ root_nodes f.

(** [c] is a child of [p] in the forest. *)
Definition child_of (f : Forest) (p c : DiscussionNode) : Prop :=
  ∃ r t, reachable f r ∧ nodeMap f !! r = Some t ∧ node t = p ∧
         c ∈ child_nodes f t.

(** The returned value as a finite tree, as a serializer walking [children]
    produces it; the fuel bounds the depth walked. *)
#[local] Unset Elimination Schemes.
Inductive Tree : Type :=
  | Tr (n : DiscussionNode) (subtrees : list Tree).
#[local] Set Elimination Schemes.

Fixpoint tree_at (m : gmap ref TreeNode) (fuel : nat) (r : ref) : option Tree :=
  match fuel with
  | O => None
  | S fuel' =>
      match m !! r with
      | None => None
      | Some t =>
          match mapM (tree_at m fuel') (children t) with
          | None => None
          | Some subtrees => Some (Tr (node t) subtrees)
          end
      end
  end.

Definition forest_of (fuel : nat) (f : Forest) : option (list Tree) :=
  mapM (tree_at (nodeMap f) fuel) (rootNodes f).

Fixpoint tree_nodes (t : Tree) : list DiscussionNode :=
  match t with
  | Tr n subtrees =>
      n :: (fix go (ts : list Tree) : list DiscussionNode :=
              match ts with
              | [] => []
              | t' :: ts' => tree_nodes t' ++ go ts'
              end) subtrees
  end.

Definition forest_nodes (ts : list Tree) : list DiscussionNode :=
  concat (tree_nodes <$> ts).

(** *** Properties of the input list *)

Definition ids (l : list DiscussionNode) : list string := id <$> l.

(** [parentId] is present and is the id of no entry. *)
Definition dangling (l : list DiscussionNode) (n : DiscussionNode) : Prop :=
  ∃ p, parentId n = Some p ∧ p ∉ ids l.

(** No entry other than [n] carries the id of [n]. *)
Definition unique_id (l : list DiscussionNode) (n : DiscussionNode) : Prop :=
  ∀ m, m ∈ l → id m = id n → m = n.

(** Entries with the same id are equal; so it is when ids are pairwise
    distinct. *)
Definition consistent_ids (l : list DiscussionNode) : Prop :=
  ∀ n, n ∈ l → unique_id l n.

(** [descendant l x d]: the chain of [parentId] references of [d] passes
    through [x]. *)
Inductive descendant (l : list DiscussionNode) (x : DiscussionNode) :
    DiscussionNode → Prop :=
  | descendant_child d :
      d ∈ l → parentId d = Some (id x) → descendant l x d
  | descendant_step d m :
      d ∈ l → parentId d = Some (id m) → descendant l x m → descendant l x d.

(** The chain of [parentId] references of the entries with id [r] ends at an
    entry without parent. *)
Inductive rooted (l : list DiscussionNode) : ref → Prop :=
  | rooted_root n :
      n ∈ l → parentId n = None → rooted l (id n)
  | rooted_child n p :
      n ∈ l → parentId n = Some p → rooted l p → rooted l (id n).

(** Every present [parentId] is the id of some entry. *)
Definition parents_resolve (l : list DiscussionNode) : Prop :=
  ∀ n p, n ∈ l → parentId n = Some p → p ∈ ids l.

(** No entry lies on a cycle of [parentId] references. *)
Definition acyclic (l : list DiscussionNode) : Prop :=
  ∀ n, n ∈ l → ¬ descendant l n n.

(** One step up: an entry with id [x] names [p] as parent. *)
Definition parent_edge (l : list DiscussionNode) (x p : ref) : Prop :=
  ∃ n, n ∈ l ∧ id n = x ∧ parentId n = Some p.

Definition ancestor (l : list DiscussionNode) : ref → ref → Prop :=
  rtc (parent_edge l).

(** The number of [parentId] references between an id and its root. *)
Inductive depth (l : list DiscussionNode) : ref → nat → Prop :=
  | depth_root n :
      n ∈ l → parentId n = None → depth l (id n) 0
  | depth_child n p d :
      n ∈ l → parentId n = Some p → depth l p d → depth l (id n) (S d).

(** The entry [nodeMap] holds at key [k] after the first pass: the last one
    of the list with that id. *)
Fixpoint latest (l : list DiscussionNode) (k : string) : option DiscussionNode :=
  match l with
  | [] => None
  | n :: l' =>
      match latest l' k with
      | Some n' => Some n'
      | None => if decide (id n = k) then Some n else None
      end
  end.

Definition roots_of (l : list DiscussionNode) : list DiscussionNode :=
  filter (λ n, parentId n = None) l.

Definition children_of (l : list DiscussionNode) (k : string) : list DiscussionNode :=
  filter (λ n, parentId n = Some k) l.

(** ** Sample data *)

Definition sample_db : Database :=
  {| uuid := λ rows, String.append "node-" (pretty (length rows));
     now := λ rows, Z.of_nat (length rows);
     find_createdAt_DESC := λ rows, reverse rows |}.

Definition sample_parent : DiscussionNode :=
  {| id := "parent-id"; value := 10; operation := None; operand := None;
     parentId := None; author := None; authorId := "user-id"; createdAt := 0 |}.

Definition sample_root (i : string) (v : number) (t : Z) : DiscussionNode :=
  {| id := i; value := v; operation := None; operand := None;
     parentId := None; author := None; authorId := "user-id"; createdAt := t |}.

Definition sample_child (i : string) (v : number) (op : Operation) (x : number)
    (p : string) (t : Z) : DiscussionNode :=
  {| id := i; value := v; operation := Some op; operand := Some x;
     parentId := Some p; author := None; authorId := "user-id"; createdAt := t |}.

(** A root, its child and its grandchild: 10, 10 + 5, (10 + 5) × 3. *)
Definition node_A : DiscussionNode := sample_root "A" 10 0.
Definition node_B : DiscussionNode := sample_child "B" 15 ADD 5 "A" 1.
Definition node_C : DiscussionNode := sample_child "C" 45 MULTIPLY 3 "B" 2.

(** A node whose parent is missing, and a child of that node. *)
Definition orphan_X : DiscussionNode := sample_child "X" 12 ADD 2 "missing" 3.
Definition node_D : DiscussionNode := sample_child "D" 24 MULTIPLY 2 "X" 4.

Definition node_S : DiscussionNode := sample_child "S" 1 ADD 1 "S" 7.

(** ** Tactics for closed goals on the sample data *)

Ltac vm_decide := apply (bool_decide_unpack _); vm_compute; exact I.

Ltac solve_elem :=
  repeat first [apply list_elem_of_here | apply list_elem_of_further].

(** Case analysis on [H : n ∈ [a; b; ...]]. *)
Ltac list_cases H :=
  repeat (apply elem_of_cons in H as [->|H]); [..|by apply elem_of_nil in H].

(** ** DiscussionsController (discussions/discussions.controller.ts) *)

(** [req.user], as the JWT strategy's [validate] returns it. *)
Module JwtUser.
Record t : Type := mk { userId : string; username : string }.
End JwtUser.

(** A request that [AuthGuard('jwt')] has let through: [req.user] is set. *)
Record AuthenticatedRequest : Type := mkRequest { user : JwtUser.t }.

Module DiscussionsController.
Section Handlers.
Context (db : Database).

(** [@Post()], guarded. *)
Definition createDiscussion (req : AuthenticatedRequest)
    (createDiscussionDto : CreateDiscussionDto.t) : Service DiscussionNode :=
  createDiscussion db (JwtUser.userId (user req)) createDiscussionDto.

(** [@Post('operation')], guarded. *)
Definition addOperation (req : AuthenticatedRequest)
    (addOperationDto : AddOperationDto.t) : Service DiscussionNode :=
  addOperation db (JwtUser.userId (user req)) addOperationDto.
End Handlers.
End DiscussionsController.

(** *** Sequences of requests *)

(** The requests that reach the service: the two guarded posts through
    their handlers, and the listing. *)
Inductive Call : Type :=
  | PostDiscussion (req : AuthenticatedRequest) (dto : CreateDiscussionDto.t)
  | PostOperation (req : AuthenticatedRequest) (dto : AddOperationDto.t)
  | GetDiscussions.

(** The rows a request leaves, whether it returned or threw. *)
Definition handle (db : Database) (c : Call) (rows : list DiscussionNode) :
    list DiscussionNode :=
  match c with
  | PostDiscussion req dto => (DiscussionsController.createDiscussion db req dto rows).2
  | PostOperation req dto => (DiscussionsController.addOperation db req dto rows).2
  | GetDiscussions => (getAllDiscussions db rows).2
  end.

Definition run (db : Database) (cs : list Call) (rows : list DiscussionNode) :
    list DiscussionNode :=
  fold_left (λ rows c, handle db c rows) cs rows.

(** The database never hands out an id a row already has. *)
Definition fresh_uuids (db : Database) : Prop :=
  ∀ rows, uuid db rows ∉ ids rows.

(** The columns of a row, without the loaded [author] relation. *)
Definition without_author (n : DiscussionNode) : DiscussionNode :=
  {| id := id n; value := value n; operation := operation n;
     operand := operand n; parentId := parentId n; author := None;
     authorId := authorId n; createdAt := createdAt n |}.

(** [find] answers every row once, in some order, with its author loaded. *)
Definition lists_rows (db : Database) : Prop :=
  ∀ rows, without_author <$> find_createdAt_DESC db rows ≡ₚ
          without_author <$> rows.

(** Every entry's chain of [parentId] references ends at a root. *)
Definition all_rooted (l : list DiscussionNode) : Prop :=
  ∀ n, n ∈ l → rooted l (id n).

(** [operation], [operand] and [parentId] are all present or all absent. *)
Definition paired (n : DiscussionNode) : Prop :=
  (parentId n = None ∧ operation n = None ∧ operand n = None) ∨
  (is_Some (parentId n) ∧ is_Some (operation n) ∧ is_Some (operand n)).

(** The user ids of the posts of a sequence of requests. *)
Definition posters (cs : list Call) : list string :=
  omap (λ c, match c with
             | PostDiscussion req _ | PostOperation req _ =>
                 Some (JwtUser.userId (user req))
             | GetDiscussions => None
             end) cs.

(** A database for the examples: the new id is longer than every id in the
    table, and the listing is the rows, newest first. *)
Definition longer_id (rows : list DiscussionNode) : string :=
  fold_right (λ n acc, String.append (id n) acc) "x" rows.

Definition fresh_db : Database :=
  {| uuid := longer_id;
     now := λ rows, Z.of_nat (length rows);
     find_createdAt_DESC := λ rows, reverse rows |}.

Definition alice : AuthenticatedRequest := mkRequest (JwtUser.mk "alice-id" "alice").
Definition bob : AuthenticatedRequest := mkRequest (JwtUser.mk "bob-id" "bob").

(** A root by alice, a child of it by bob, a listing, and a post on a
    missing parent. *)
Definition sample_calls : list Call :=
  [PostDiscussion alice (CreateDiscussionDto.mk 10);
   PostOperation bob (AddOperationDto.mk "x" ADD 5);
   GetDiscussions;
   PostOperation alice (AddOperationDto.mk "missing" ADD 1)].

Definition first_node : DiscussionNode :=
  {| id := "x"; value := 10; operation := None; operand := None;
     parentId := None; author := None; authorId := "alice-id"; createdAt := 0 |}.

(** ** The listing of the implementation guide

    The guide's [DiscussionsService.getAllDiscussions] differs from the
    service's: the roots are filtered first, the map is built from an array
    of entries, the parent test is [if (node.parentId)], and the result
    maps the roots to their objects. *)

(** Truthiness of a string: every string but the empty one. *)
Definition truthy (s : string) : bool := bool_decide (s ≠ "").

(** [new Map(entries)]: the entries are set in order, a later one replacing
    an earlier one with the same key. *)
Definition Map_of_entries {V} (entries : list (string * V)) : gmap string V :=
  fold_left (λ m kv, <[kv.1 := kv.2]> m) entries ∅.

Definition link_guide (n : DiscussionNode) (m : gmap ref TreeNode) :
    gmap ref TreeNode :=
  match parentId n with
  | Some pid =>
      if truthy pid then
        match m !! pid with
        | Some parent =>
            <[pid := {| node := node parent;
                        children := children parent ++ [id n] |}]> m
        | None => m
        end
      else m
  | None => m
  end.

Definition buildForest_guide (allNodes : list DiscussionNode) : Forest :=
  let rootNodes := filter (λ node, parentId node = None) allNodes in
  let nodeMap :=
    Map_of_entries
      ((λ node, (id node, {| node := node; children := [] |})) <$> allNodes) in
  {| nodeMap := forEach link_guide allNodes nodeMap;
     rootNodes := id <$> rootNodes |}.

(** The children the guide's loop pushes under key [k]. *)
Definition children_guide (l : list DiscussionNode) (k : string) :
    list DiscussionNode :=
  if truthy k then children_of l k else [].

(** A root whose id is the empty string, and a child of it. *)
Definition node_empty_id : DiscussionNode := sample_root "" 1 12.
Definition node_under_empty : DiscussionNode := sample_child "c" 2 ADD 1 "" 13.

(** ** app.module.ts *)

(** A JavaScript [Error] with its message. *)
Inductive Error : Type := mkError (message : string).

(** [process.env] as the finite map of the variables that are set. *)
Definition getRequiredEnvVar (env : gmap string string) (name : string) :
    Error + string :=
  match env !! name with
  | Some value =>
      if truthy value then inr value
      else inl (mkError (String.append "Required environment variable "
                           (String.append name " is not set")))
  | None =>
      inl (mkError (String.append "Required environment variable "
                      (String.append name " is not set")))
  end.

Module TypeOrmOptions.
Record t : Type := mk {
  type : string;
  host : string;
  port : number;
  username : string;
  password : string;
  database : string;
  synchronize : bool;
  logging : bool
}.
End TypeOrmOptions.

Section AppModule.
(** [parseInt] of the standard library, on the port. *)
Context (parseInt : string → number).

(** The options object handed to [TypeOrmModule.forRoot]: its properties
    are evaluated in source order, so the first call that throws ends the
    evaluation.  The [entities] glob, which is built from the directory of
    the compiled file, is left out of the record. *)
Definition typeOrmOptions (env : gmap string string) : Error + TypeOrmOptions.t :=
  match getRequiredEnvVar env "DB_HOST" with
  | inl e => inl e
  | inr host =>
  match getRequiredEnvVar env "DB_PORT" with
  | inl e => inl e
  | inr port =>
  match getRequiredEnvVar env "DB_USERNAME" with
  | inl e => inl e
  | inr username =>
  match getRequiredEnvVar env "DB_PASSWORD" with
  | inl e => inl e
  | inr password =>
  match getRequiredEnvVar env "DB_NAME" with
  | inl e => inl e
  | inr database =>
      inr {| TypeOrmOptions.type := "postgres";
             TypeOrmOptions.host := host;
             TypeOrmOptions.port := parseInt port;
             TypeOrmOptions.username := username;
             TypeOrmOptions.password := password;
             TypeOrmOptions.database := database;
             TypeOrmOptions.synchronize := true;
             TypeOrmOptions.logging := false |}
  end end end end end.
End AppModule.

(** A variable counts as set when it has a non-empty value. *)
Definition is_set (env : gmap string string) (name : string) : bool :=
  match env !! name with
  | Some value => truthy value
  | None => false
  end.

Definition required_variables : list string :=
  ["DB_HOST"; "DB_PORT"; "DB_USERNAME"; "DB_PASSWORD"; "DB_NAME"].

Definition not_set_message (name : string) : string :=
  String.append "Required environment variable "
    (String.append name " is not set").

Definition sample_env : gmap string string :=
  <["DB_HOST" := "localhost"]> (<["DB_PORT" := "5432"]>
    (<["DB_USERNAME" := "postgres"]> (<["DB_PASSWORD" := ""]>
      (<["DB_NAME" := "tree"]> ∅)))).

(** ** Validation of the request bodies (main.ts, discussions/dto)

    [main.ts] installs a global [ValidationPipe], so a body reaches a
    handler only when the decorators of its DTO class accept it. *)

(** [@IsEnum(Operation)]: the value is one of the values of the enum. *)
Definition IsEnum_Operation (value : string) : bool :=
  bool_decide (value ∈ [ADD; SUBTRACT; MULTIPLY; DIVIDE]).

(** [@IsNumber()] with its default options: a number that is neither NaN
    nor infinite. *)
Definition IsNumber (value : number) : bool :=
  negb (PrimFloat.is_nan value) && negb (PrimFloat.is_infinity value).

Section Validation.
(** [@IsUUID()]: the library's test of the textual form. *)
Context (IsUUID : string → bool).

Definition AddOperationDto_valid (dto : AddOperationDto.t) : bool :=
  IsUUID (AddOperationDto.parentId dto) &&
  IsEnum_Operation (AddOperationDto.operation dto) &&
  IsNumber (AddOperationDto.operand dto).

Definition CreateDiscussionDto_valid (dto : CreateDiscussionDto.t) : bool :=
  IsNumber (CreateDiscussionDto.startingNumber dto).
End Validation.

(** ** The browser side of the guide (frontend/src/lib) *)

(** [getOperationSymbol] of utils.ts. *)
Definition getOperationSymbol (operation : string) : string :=
  if decide (operation = "add") then "+"
  else if decide (operation = "subtract") then "-"
  else if decide (operation = "multiply") then "×"
  else if decide (operation = "divide") then "÷"
  else "".

Module ApiClient.
(** What the token methods of [ApiClient] read and write: the [token] field
    of the client, and [localStorage].  A browser has [window] and
    [localStorage]; a server has neither, and naming [localStorage] there
    throws a [ReferenceError]. *)
Record World : Type := mkWorld {
  token : option string;
  localStorage : option (gmap string string)
}.

Inductive ReferenceError : Type := localStorage_is_not_defined.

(** Truthiness of [string | null]. *)
Definition truthy_token (token : option string) : bool :=
  match token with
  | Some s => truthy s
  | None => false
  end.

Definition setToken (tok : option string) (w : World) :
    (ReferenceError + unit) * World :=
  match localStorage w with
  | None =>
      (inl localStorage_is_not_defined,
       {| token := tok; localStorage := None |})
  | Some storage =>
      match tok with
      | Some s =>
          if truthy s then
            (inr (), {| token := tok;
                        localStorage := Some (<["token" := s]> storage) |})
          else
            (inr (), {| token := tok;
                        localStorage := Some (delete "token" storage) |})
      | None =>
          (inr (), {| token := tok;
                      localStorage := Some (delete "token" storage) |})
      end
  end.

Definition getToken (w : World) : option string * World :=
  if negb (truthy_token (token w)) then
    match localStorage w with
    | Some storage =>
        (storage !! "token",
         {| token := storage !! "token"; localStorage := Some storage |})
    | None => (token w, w)
    end
  else (token w, w).

(** A fresh client on the same [localStorage]: the page was loaded again. *)
Definition reload (w : World) : World :=
  {| token := None; localStorage := localStorage w |}.
End ApiClient.

(** ** Users and authentication (users/users.service.ts,
       auth/auth.service.ts, auth/jwt.strategy.ts of the guide) *)

Module RegisterDto.
Record t : Type := mk { username : string; password : string }.
End RegisterDto.

Module LoginDto.
Record t : Type := mk { username : string; password : string }.
End LoginDto.

(** What the two services throw: the two HTTP exceptions of auth.service.ts
    and jwt.strategy.ts, and the error of the database when a [save] breaks
    the unique constraint on [username]. *)
Inductive AuthException : Type :=
  | ConflictException (message : string)
  | UnauthorizedException (message : option string)
  | QueryFailedError.

(** The payload of a token. *)
Module JwtPayload.
Record t : Type := mk { username : string; sub : string }.
End JwtPayload.

Module UserInfo.
Record t : Type := mk { id : string; username : string }.
End UserInfo.

Module AuthResponse.
Record t : Type := mk { access_token : string; user : UserInfo.t }.
End AuthResponse.

(** What the environment decides: the uuid and the timestamp the database
    gives a new user, the salted hash bcrypt computes when the table holds
    the given rows, bcrypt's comparison, the token [JwtService.sign] makes
    of a payload, and the payload passport-jwt reads off a bearer token
    ([None] when it rejects the token). *)
Record AuthEnv : Type := mkAuthEnv {
  user_uuid : list User.t → string;
  user_now : list User.t → Z;
  bcrypt_hash : list User.t → string → string;
  bcrypt_compare : string → string → bool;
  jwt_sign : JwtPayload.t → string;
  jwt_verify : string → option JwtPayload.t
}.

Definition usernames (users : list User.t) : list string :=
  User.username <$> users.

Definition user_ids (users : list User.t) : list string :=
  User.id <$> users.

Module UsersService.
Section UsersService.
Context (env : AuthEnv).

(** [usersRepository.save(usersRepository.create({ username, password }))]:
    the row is appended with a new id, unless the unique column [username]
    already holds the name. *)
Definition save (username password : string) (users : list User.t) :
    (AuthException + User.t) * list User.t :=
  if bool_decide (username ∈ usernames users) then (inl QueryFailedError, users)
  else
    let user := {| User.id := user_uuid env users;
                   User.username := username;
                   User.password := password;
                   User.createdAt := user_now env users |} in
    (inr user, users ++ [user]).

Definition create (username password : string) (users : list User.t) :
    (AuthException + User.t) * list User.t :=
  let hashedPassword := bcrypt_hash env users password in
  save username hashedPassword users.

Definition findByUsername (username : string) (users : list User.t) :
    option User.t :=
  List.find (λ u, bool_decide (User.username u = username)) users.

Definition findById (id : string) (users : list User.t) : option User.t :=
  List.find (λ u, bool_decide (User.id u = id)) users.

Definition validatePassword (user : User.t) (password : string) : bool :=
  bcrypt_compare env password (User.password user).
End UsersService.
End UsersService.

Module AuthService.
Section AuthService.
Context (env : AuthEnv).

Definition register (registerDto : RegisterDto.t) (users : list User.t) :
    (AuthException + AuthResponse.t) * list User.t :=
  match UsersService.findByUsername (RegisterDto.username registerDto) users with
  | Some existingUser =>
      (inl (ConflictException "Username already exists"), users)
  | None =>
      match UsersService.create env (RegisterDto.username registerDto)
              (RegisterDto.password registerDto) users with
      | (inl e, users') => (inl e, users')
      | (inr user, users') =>
          let payload := {| JwtPayload.username := User.username user;
                            JwtPayload.sub := User.id user |} in
          (inr {| AuthResponse.access_token := jwt_sign env payload;
                  AuthResponse.user :=
                    {| UserInfo.id := User.id user;
                       UserInfo.username := User.username user |} |},
           users')
      end
  end.

Definition login (loginDto : LoginDto.t) (users : list User.t) :
    (AuthException + AuthResponse.t) * list User.t :=
  match UsersService.findByUsername (LoginDto.username loginDto) users with
  | Some user =>
      if UsersService.validatePassword env user (LoginDto.password loginDto)
      then
        let payload := {| JwtPayload.username := User.username user;
                          JwtPayload.sub := User.id user |} in
        (inr {| AuthResponse.access_token := jwt_sign env payload;
                AuthResponse.user :=
                  {| UserInfo.id := User.id user;
                     UserInfo.username := User.username user |} |},
         users)
      else (inl (UnauthorizedException (Some "Invalid credentials")), users)
  | None => (inl (UnauthorizedException (Some "Invalid credentials")), users)
  end.
End AuthService.
End AuthService.

Module JwtStrategy.
Definition validate (payload : JwtPayload.t) (users : list User.t) :
    AuthException + JwtUser.t :=
  match UsersService.findById (JwtPayload.sub payload) users with
  | None => inl (UnauthorizedException None)
  | Some user =>
      inr {| JwtUser.userId := User.id user;
             JwtUser.username := User.username user |}
  end.
End JwtStrategy.

(** [AuthGuard('jwt')] on a request with the given bearer token: passport
    reads the payload off the token, hands it to [validate] and sets
    [req.user] to what [validate] returns. *)
Definition AuthGuard (env : AuthEnv) (bearer : string) (users : list User.t) :
    AuthException + AuthenticatedRequest :=
  match jwt_verify env bearer with
  | None => inl (UnauthorizedException None)
  | Some payload =>
      match JwtStrategy.validate payload users with
      | inl e => inl e
      | inr user => inr (mkRequest user)
      end
  end.

(** *** Sequences of requests to the auth controller *)

Inductive AuthCall : Type :=
  | PostRegister (dto : RegisterDto.t)
  | PostLogin (dto : LoginDto.t).

Definition auth_handle (env : AuthEnv) (c : AuthCall) (users : list User.t) :
    list User.t :=
  match c with
  | PostRegister dto => (AuthService.register env dto users).2
  | PostLogin dto => (AuthService.login env dto users).2
  end.

Definition auth_run (env : AuthEnv) (cs : list AuthCall) (users : list User.t) :
    list User.t :=
  fold_left (λ users c, auth_handle env c users) cs users.


(** bcrypt accepts a password against its own hash. *)
Definition bcrypt_sound (env : AuthEnv) : Prop :=
  ∀ users password,
    bcrypt_compare env password (bcrypt_hash env users password) = true.

(** A token that passport reads back as the payload it was signed for. *)
Definition jwt_round_trip (env : AuthEnv) (payload : JwtPayload.t) : Prop :=
  jwt_verify env (jwt_sign env payload) = Some payload.

Definition longer_user_id (users : list User.t) : string :=
  fold_right (λ u acc, String.append (User.id u) acc) "u" users.

(** An environment for examples: the hash is the password behind a mark,
    the token is the user id, read back with the name "carol". *)
Definition sample_auth_env : AuthEnv :=
  {| user_uuid := longer_user_id;
     user_now := λ users, Z.of_nat (length users);
     bcrypt_hash := λ _ password, String.append "$2b$" password;
     bcrypt_compare := λ password hashed,
       bool_decide (hashed = String.append "$2b$" password);
     jwt_sign := JwtPayload.sub;
     jwt_verify := λ bearer,
       Some {| JwtPayload.username := "carol"; JwtPayload.sub := bearer |} |}.

Definition carol : RegisterDto.t := RegisterDto.mk "carol" "secret1".
Definition dave : RegisterDto.t := RegisterDto.mk "dave" "secret2".

Definition sample_auth_calls : list AuthCall :=
  [PostRegister dave; PostRegister carol;
   PostLogin (LoginDto.mk "dave" "wrong")].

Definition carol_response : AuthResponse.t :=
  {| AuthResponse.access_token := "u";
     AuthResponse.user := {| UserInfo.id := "u"; UserInfo.username := "carol" |} |}.

(** * Value computation *)

Lemma calculateResult_cases (v o : number) (op : Operation) :
  calculateResult v op o =
    if decide (op = ADD) then inr (v + o)%float
    else if decide (op = SUBTRACT) then inr (v - o)%float
    else if decide (op = MULTIPLY) then inr (v * o)%float
    else if decide (op = DIVIDE) then
      if (o =? 0)%float
      then inl (BadRequestException "Division by zero is not allowed")
      else inr (v / o)%float
    else inl (BadRequestException "Invalid operation").
Proof. reflexivity. Qed.

Lemma calculateResult_inl (v o : number) (op : Operation) (e : HttpException) :
  calculateResult v op o = inl e → ∃ message, e = BadRequestException message.
Proof.
  rewrite calculateResult_cases.
  repeat case_decide; try discriminate.
  - destruct (o =? 0)%float; [|discriminate]. intros [= <-]. eauto.
  - intros [= <-]. eauto.
Qed.

(** C1: for each of the four operations, with a non-zero operand for divide
    (non-zero as [===] compares numbers), [calculateResult] returns
    parentValue + operand, parentValue − operand, parentValue × operand and
    parentValue ÷ operand respectively. *)
Theorem calculateResult_arithmetic (parentValue operand : number) (op : Operation) :
  (op = DIVIDE → (operand =? 0)%float = false) →
  (op = ADD → calculateResult parentValue op operand = inr (parentValue + operand)%float) ∧
  (op = SUBTRACT → calculateResult parentValue op operand = inr (parentValue - operand)%float) ∧
  (op = MULTIPLY → calculateResult parentValue op operand = inr (parentValue * operand)%float) ∧
  (op = DIVIDE → calculateResult parentValue op operand = inr (parentValue / operand)%float).
Proof.
  intros Hnz. repeat split; intros ->; rewrite calculateResult_cases.
  - reflexivity.
  - reflexivity.
  - reflexivity.
  - rewrite (Hnz eq_refl). reflexivity.
Qed.

Lemma calculateResult_arithmetic_witness :
  calculateResult 10 ADD 5 = inr 15%float ∧
  calculateResult 10 SUBTRACT 5 = inr 5%float ∧
  calculateResult 10 MULTIPLY 5 = inr 50%float ∧
  calculateResult 10 DIVIDE 5 = inr 2%float.
Proof.
  split; [|split; [|split]].
  - apply (calculateResult_arithmetic 10 5 ADD); [discriminate | reflexivity].
  - apply (calculateResult_arithmetic 10 5 SUBTRACT); [discriminate | reflexivity].
  - apply (calculateResult_arithmetic 10 5 MULTIPLY); [discriminate | reflexivity].
  - apply (calculateResult_arithmetic 10 5 DIVIDE); [reflexivity | reflexivity].
Defined.

(** C2: [calculateResult] fails, and then with the bad-request exception
    (InvalidOperation), exactly when the operation is divide and the operand
    is zero, or the operation is none of the four kinds; otherwise it
    returns a value. *)
Theorem calculateResult_fails_iff (parentValue operand : number) (op : Operation) :
  let fails := (op = DIVIDE ∧ (operand =? 0)%float = true) ∨
               op ∉ [ADD; SUBTRACT; MULTIPLY; DIVIDE] in
  (InvalidOperation (calculateResult parentValue op operand) ↔ fails) ∧
  (∀ e, calculateResult parentValue op operand = inl e →
        InvalidOperation (calculateResult parentValue op operand)) ∧
  (¬ fails → ∃ result, calculateResult parentValue op operand = inr result).
Proof.
  set (fails := _ ∨ _).
  assert (Hdec : (fails ∧ InvalidOperation (calculateResult parentValue op operand)) ∨
                 (¬ fails ∧ ∃ result, calculateResult parentValue op operand = inr result)).
  { subst fails. rewrite calculateResult_cases.
    destruct (decide (op = ADD)) as [->|Ha].
    { right. split; [|eauto]. intros [[Heq _]|Hn]; [discriminate Heq|]. apply Hn. set_solver. }
    destruct (decide (op = SUBTRACT)) as [->|Hs].
    { right. split; [|eauto]. intros [[Heq _]|Hn]; [discriminate Heq|]. apply Hn. set_solver. }
    destruct (decide (op = MULTIPLY)) as [->|Hm].
    { right. split; [|eauto]. intros [[Heq _]|Hn]; [discriminate Heq|]. apply Hn. set_solver. }
    destruct (decide (op = DIVIDE)) as [->|Hd].
    - destruct (operand =? 0)%float eqn:Hz.
      + left. split; [by left | eexists; reflexivity].
      + right. split; [|eauto]. intros [[_ Heq]|Hn]; [discriminate Heq|]. apply Hn. set_solver.
    - left. split; [|eexists; reflexivity]. right.
      rewrite !elem_of_cons, elem_of_nil. tauto. }
  split; [|split].
  - destruct Hdec as [[Hf Hi]|[Hnf [r Hr]]]; [tauto|].
    split; [|tauto]. intros [msg Hmsg]. congruence.
  - intros e He. destruct Hdec as [[_ Hi]|[_ [r Hr]]]; [done | congruence].
  - intros Hnf. destruct Hdec as [[Hf _]|[_ Hr]]; [tauto | done].
Qed.

(** * Root and child creation *)

Section Creation.
Context (db : Database).

Lemma findOne_None (pid : string) (rows : list DiscussionNode) :
  (∀ n, n ∈ rows → id n ≠ pid) →
  List.find (λ n, bool_decide (id n = pid)) rows = None.
Proof.
  intros Hno. destruct (List.find _ rows) as [n|] eqn:Hfind; [|done].
  apply find_some in Hfind as [Hin Heq].
  apply bool_decide_eq_true in Heq. apply list_elem_of_In in Hin.
  by destruct (Hno n Hin).
Qed.

(** C7: [createDiscussion] produces a node without operation, operand and
    parent, with the starting number as value and the caller as author;
    the node is the one row added to the table. *)
Theorem createDiscussion_root (userId : string) (dto : CreateDiscussionDto.t)
    (rows : list DiscussionNode) :
  ∃ n, createDiscussion db userId dto rows = (inr n, rows ++ [n]) ∧
       operation n = None ∧ operand n = None ∧ parentId n = None ∧
       value n = CreateDiscussionDto.startingNumber dto ∧
       authorId n = userId.
Proof. eexists. split; [reflexivity|]. by repeat split. Qed.

(** C3: when no row has the given [parentId], [addOperation] throws
    NotFound; and whenever [addOperation] throws, with NotFound or with
    the bad-request exception of [calculateResult], the rows are unchanged. *)
Theorem addOperation_failure (userId : string) (dto : AddOperationDto.t)
    (rows : list DiscussionNode) :
  ((∀ n, n ∈ rows → id n ≠ AddOperationDto.parentId dto) →
   (addOperation db userId dto rows).1 =
     inl (NotFoundException "Parent node not found")) ∧
  (∀ e, (addOperation db userId dto rows).1 = inl e →
        (addOperation db userId dto rows).2 = rows ∧
        (NotFound (addOperation db userId dto rows).1 ∨
         InvalidOperation (addOperation db userId dto rows).1)).
Proof.
  unfold addOperation, bind, findOne, lift, throw. cbn. split.
  - intros Hno. by rewrite (findOne_None _ _ Hno).
  - intros e.
    destruct (List.find _ rows) as [parent|]; cbn.
    + destruct (calculateResult _ _ _) as [e'|result] eqn:Hcalc; cbn; [|done].
      intros _. split; [done|]. right.
      destruct (calculateResult_inl _ _ _ _ Hcalc) as [message ->].
      by exists message.
    + intros _. split; [done|]. left. by eexists.
Qed.
End Creation.

Lemma addOperation_failure_witness :
  (addOperation sample_db "user-id"
     (AddOperationDto.mk "missing" ADD 5) [sample_parent]).1 =
    inl (NotFoundException "Parent node not found") ∧
  (addOperation sample_db "user-id"
     (AddOperationDto.mk "parent-id" DIVIDE 0) [sample_parent]).2 =
    [sample_parent].
Proof.
  split.
  - apply (addOperation_failure sample_db).
    intros n Hn. apply list_elem_of_singleton in Hn. subst n. discriminate.
  - eapply (addOperation_failure sample_db). reflexivity.
Defined.

(** * Forest reconstruction: what the two passes build *)

Section Passes.
Implicit Types (l : list DiscussionNode) (n : DiscussionNode) (k r : ref).

Lemma forEach_cons {A St} (callback : A → St → St) (a : A) (array : list A) (s : St) :
  forEach callback (a :: array) s = forEach callback array (callback a s).
Proof. reflexivity. Qed.

Lemma latest_Some l k n : latest l k = Some n → n ∈ l ∧ id n = k.
Proof.
  induction l as [|x l IH]; cbn; [done|].
  destruct (latest l k) as [n'|].
  - intros [= ->]. destruct IH as [Hin Hid]; [done|]. split; [by right | done].
  - case_decide; [|done]. intros [= ->]. split; [by left | done].
Qed.

Lemma latest_None l k : latest l k = None ↔ k ∉ ids l.
Proof.
  unfold ids. induction l as [|x l IH]; cbn.
  - split; [|done]. intros _. apply not_elem_of_nil.
  - rewrite not_elem_of_cons. destruct (latest l k) as [n'|].
    + split; [done|]. intros [_ Hk]. by apply IH in Hk.
    + case_decide; split; try done.
      * intros [Hne _]. by destruct Hne.
      * intros _. split; [done | by apply IH].
Qed.

Lemma latest_is_Some l n : n ∈ l → is_Some (latest l (id n)).
Proof.
  intros Hin. destruct (latest l (id n)) eqn:Hl; [by eexists|].
  apply latest_None in Hl. destruct Hl. unfold ids. by apply list_elem_of_fmap_2.
Qed.

Lemma latest_unique l n : n ∈ l → unique_id l n → latest l (id n) = Some n.
Proof.
  intros Hin Huniq. destruct (latest_is_Some l n Hin) as [m Hm].
  rewrite Hm. f_equal. apply latest_Some in Hm as [Hm Hid]. by apply Huniq.
Qed.

(** First pass. *)
Lemma set_nodes_lookup l (m : gmap ref TreeNode) k :
  forEach set_node l m !! k =
    match latest l k with
    | Some n => Some {| node := n; children := [] |}
    | None => m !! k
    end.
Proof.
  revert m. induction l as [|x l IH]; intros m; [done|].
  rewrite forEach_cons, IH. cbn. destruct (latest l k); [done|].
  unfold set_node. rewrite lookup_insert. by repeat case_decide.
Qed.

(** Second pass: the root array. *)
Lemma links_roots l (f : Forest) :
  rootNodes (forEach link l f) = rootNodes f ++ ids (roots_of l).
Proof.
  unfold ids, roots_of. revert f.
  induction l as [|x l IH]; intros f; [by rewrite app_nil_r|].
  rewrite forEach_cons, IH, filter_cons. unfold link.
  destruct (parentId x) as [pid|] eqn:Hp.
  - rewrite decide_False by done.
    by destruct (nodeMap f !! pid).
  - rewrite decide_True by done. cbn. by rewrite <- app_assoc.
Qed.

(** Second pass: the [children] arrays; the copied columns stay. *)
Lemma links_lookup l (f : Forest) k :
  nodeMap (forEach link l f) !! k =
    (λ t, {| node := node t;
             children := children t ++ ids (children_of l k) |})
      <$> nodeMap f !! k.
Proof.
  unfold ids, children_of. revert f.
  induction l as [|x l IH]; intros f.
  - cbn. destruct (nodeMap f !! k) as [[n cs]|]; cbn; [|done].
    by rewrite app_nil_r.
  - rewrite forEach_cons, IH, filter_cons. unfold link.
    destruct (parentId x) as [pid|] eqn:Hp.
    + destruct (nodeMap f !! pid) as [parent|] eqn:Hpar; cbn.
      * rewrite lookup_insert. case_decide as Hk.
        -- subst pid. rewrite Hpar, decide_True by done. cbn.
           by rewrite <- app_assoc.
        -- rewrite decide_False by congruence. done.
      * destruct (decide (Some pid = Some k)) as [[= ->]|Hne]; [|done].
        by rewrite Hpar.
    + by rewrite decide_False by done.
Qed.

Lemma buildForest_roots l : rootNodes (buildForest l) = ids (roots_of l).
Proof. unfold buildForest. by rewrite links_roots. Qed.

Lemma buildForest_lookup l k :
  nodeMap (buildForest l) !! k =
    (λ n, {| node := n; children := ids (children_of l k) |}) <$> latest l k.
Proof.
  unfold buildForest. rewrite links_lookup. cbn.
  rewrite set_nodes_lookup, lookup_empty. by destruct (latest l k).
Qed.

Lemma buildForest_lookup_Some l k t :
  nodeMap (buildForest l) !! k = Some t →
  latest l k = Some (node t) ∧ children t = ids (children_of l k).
Proof.
  rewrite buildForest_lookup. destruct (latest l k); cbn; [|done].
  by intros [= <-].
Qed.

Lemma elem_of_roots l r :
  r ∈ rootNodes (buildForest l) ↔ ∃ n, n ∈ l ∧ id n = r ∧ parentId n = None.
Proof.
  rewrite buildForest_roots. unfold ids, roots_of.
  rewrite list_elem_of_fmap. split.
  - intros (n & -> & Hn). apply list_elem_of_filter in Hn as [Hp Hn]. eauto.
  - intros (n & Hn & <- & Hp). exists n. split; [done|].
    by apply list_elem_of_filter.
Qed.

Lemma elem_of_children l k c :
  c ∈ ids (children_of l k) ↔ ∃ n, n ∈ l ∧ id n = c ∧ parentId n = Some k.
Proof.
  unfold ids, children_of.
  rewrite list_elem_of_fmap. split.
  - intros (n & -> & Hn). apply list_elem_of_filter in Hn as [Hp Hn]. eauto.
  - intros (n & Hn & <- & Hp). exists n. split; [done|].
    by apply list_elem_of_filter.
Qed.

Lemma rooted_ids l r : rooted l r → r ∈ ids l.
Proof. unfold ids. destruct 1; by apply list_elem_of_fmap_2. Qed.

(** The objects of the returned forest are those whose chain of
    [parentId] references ends at a root. *)
Lemma reachable_rooted l r : reachable (buildForest l) r ↔ rooted l r.
Proof.
  split.
  - induction 1 as [r Hr|p t c _ IH Hp Hc].
    + apply elem_of_roots in Hr as (n & Hin & <- & Hnone). by apply rooted_root.
    + apply buildForest_lookup_Some in Hp as [_ Hcs]. rewrite Hcs in Hc.
      apply elem_of_children in Hc as (n & Hin & <- & Hpar).
      by apply rooted_child with p.
  - induction 1 as [n Hin Hnone|n p Hin Hpar Hp IH].
    + apply reachable_root, elem_of_roots. eauto.
    + assert (Hk : p ∈ ids l) by (by apply rooted_ids).
      destruct (latest l p) as [x|] eqn:Hx; [|by apply latest_None in Hx].
      eapply reachable_child; [exact IH | |].
      * rewrite buildForest_lookup, Hx. reflexivity.
      * cbn. apply elem_of_children. eauto.
Qed.

(** [nodeMap.get(node.id)!] in the second pass: the key is there. *)
Lemma currentNode_defined l n :
  n ∈ l → is_Some (nodeMap (buildForest l) !! id n).
Proof.
  intros Hn. rewrite buildForest_lookup.
  destruct (latest_is_Some l n Hn) as [x ->]. by eexists.
Qed.

Lemma in_forest_iff l n :
  in_forest (buildForest l) n ↔ rooted l (id n) ∧ latest l (id n) = Some n.
Proof.
  split.
  - intros (r & t & Hr & Ht & <-).
    apply buildForest_lookup_Some in Ht as [Hl _].
    apply latest_Some in Hl as Hl'. destruct Hl' as [_ Hid].
    rewrite Hid. split; [by apply reachable_rooted | done].
  - intros [Hr Hl]. exists (id n), {| node := n; children := ids (children_of l (id n)) |}.
    split; [by apply reachable_rooted|]. split; [|done].
    by rewrite buildForest_lookup, Hl.
Qed.
End Passes.

(** * Forest reconstruction: excluded nodes and order *)

Section Forest.
Implicit Types (l : list DiscussionNode) (n x d : DiscussionNode) (k r : ref).

Lemma getAllDiscussions_returns (db : Database) (rows : list DiscussionNode) :
  getAllDiscussions db rows =
    (inr (buildForest (find_createdAt_DESC db rows)), rows).
Proof. reflexivity. Qed.

Lemma rooted_inv l n :
  unique_id l n → rooted l (id n) →
  n ∈ l ∧ (parentId n = None ∨ ∃ p, parentId n = Some p ∧ rooted l p).
Proof.
  intros Huniq Hr. inversion Hr as [m Hm Hnone Hid|m p Hm Hpar Hp Hid];
    apply Huniq in Hid; try done; subst m; (split; [done|]).
  - by left.
  - right. eauto.
Qed.

Lemma in_forest_elem_of l n : in_forest (buildForest l) n → n ∈ l.
Proof. intros [_ Hl]%in_forest_iff. by apply latest_Some in Hl as [? _]. Qed.

Lemma in_forest_reachable l n :
  in_forest (buildForest l) n → reachable (buildForest l) (id n).
Proof. intros [Hr _]%in_forest_iff. by apply reachable_rooted. Qed.

Lemma not_rooted_absent l n : ¬ rooted l (id n) → absent (buildForest l) n.
Proof.
  intros Hnot. split.
  - by intros Hr%reachable_rooted.
  - by intros Hr%in_forest_reachable%reachable_rooted.
Qed.

Lemma dangling_not_rooted l n :
  unique_id l n → dangling l n → ¬ rooted l (id n).
Proof.
  intros Huniq (p & Hp & Hnot) Hr.
  destruct (rooted_inv l n Huniq Hr) as [_ [Hnone|(p' & Hp' & Hr')]];
    [congruence|].
  apply rooted_ids in Hr'. congruence.
Qed.

Lemma dangling_absent l n :
  dangling l n → unique_id l n → absent (buildForest l) n.
Proof. intros Hd Huniq. by apply not_rooted_absent, dangling_not_rooted. Qed.

Lemma descendant_elem_of l x d : descendant l x d → d ∈ l.
Proof. by destruct 1. Qed.

Lemma descendant_trans l a b c :
  descendant l a b → descendant l b c → descendant l a c.
Proof.
  intros Hab. induction 1 as [c Hc Hpar|c m Hc Hpar _ IH].
  - by apply descendant_step with b.
  - by apply descendant_step with m.
Qed.

Lemma rooted_parent l n m :
  consistent_ids l → n ∈ l → parentId n = Some (id m) →
  rooted l (id n) → rooted l (id m).
Proof.
  intros Hcons Hin Hpar Hr.
  destruct (rooted_inv l n (Hcons n Hin) Hr) as [_ [Hnone|(p & Hp & Hr')]];
    congruence.
Qed.

Lemma rooted_descendant l x d :
  consistent_ids l → descendant l x d → rooted l (id d) → rooted l (id x).
Proof.
  intros Hcons. induction 1 as [d Hd Hpar|d m Hd Hpar _ IH]; intros Hr.
  - by apply (rooted_parent l d x).
  - apply IH. by apply (rooted_parent l d m).
Qed.

Lemma rooted_acyclic l r :
  consistent_ids l → rooted l r →
  ∀ n, n ∈ l → id n = r → ¬ descendant l n n.
Proof.
  intros Hcons. induction 1 as [m Hm Hnone|m p Hm Hpar Hp IH]; intros n Hin Hid Hcyc.
  - symmetry in Hid. apply (Hcons n Hin) in Hid; [|done]. subst m.
    inversion Hcyc; congruence.
  - symmetry in Hid. apply (Hcons n Hin) in Hid; [|done]. subst m.
    inversion Hcyc as [? _ Hself|? m' _ Hup Hdown]; subst.
    + apply (IH n Hin); [congruence | done].
    + apply (IH m'); [by apply (descendant_elem_of l n) | congruence |].
      apply descendant_trans with n; [|done].
      by apply descendant_child.
Qed.

Lemma deref_ids_id l (l' : list DiscussionNode) :
  l' ⊆ l → id <$> deref (buildForest l) (ids l') = ids l'.
Proof.
  unfold deref, ids. induction l' as [|n l' IH]; intros Hsub; [done|].
  cbn. rewrite buildForest_lookup.
  destruct (latest_is_Some l n) as [m Hm]; [apply Hsub; by left|].
  rewrite Hm. cbn. apply latest_Some in Hm as [_ ->].
  f_equal. apply IH. intros y Hy. apply Hsub. by right.
Qed.

Lemma deref_ids l (l' : list DiscussionNode) :
  consistent_ids l → l' ⊆ l → deref (buildForest l) (ids l') = l'.
Proof.
  intros Hcons. unfold deref, ids.
  induction l' as [|n l' IH]; intros Hsub; [done|].
  assert (Hin : n ∈ l) by (apply Hsub; by left).
  cbn. rewrite buildForest_lookup, (latest_unique l n Hin (Hcons n Hin)). cbn.
  f_equal. apply IH. intros y Hy. apply Hsub. by right.
Qed.

Lemma roots_of_subseteq l : roots_of l ⊆ l.
Proof. intros y Hy. by apply list_elem_of_filter in Hy as [_ ?]. Qed.

Lemma children_of_subseteq l k : children_of l k ⊆ l.
Proof. intros y Hy. by apply list_elem_of_filter in Hy as [_ ?]. Qed.

(** C6: the root array holds, in input order, the objects of the entries
    without parent, and the [children] array of the object at key [k]
    holds, in input order, the objects of the entries whose [parentId] is
    [k]; nothing is sorted.  Read as nodes, the two sequences carry the ids
    of those entries in that order. *)
Theorem children_follow_input_order l :
  (rootNodes (buildForest l) = ids (filter (λ n, parentId n = None) l) ∧
   id <$> root_nodes (buildForest l) = ids (filter (λ n, parentId n = None) l)) ∧
  (∀ k t, nodeMap (buildForest l) !! k = Some t →
     children t = ids (filter (λ n, parentId n = Some k) l) ∧
     id <$> child_nodes (buildForest l) t =
       ids (filter (λ n, parentId n = Some k) l)).
Proof.
  fold (roots_of l). split.
  - unfold root_nodes. rewrite buildForest_roots. split; [done|].
    apply deref_ids_id, roots_of_subseteq.
  - intros k t Ht. fold (children_of l k). unfold child_nodes.
    apply buildForest_lookup_Some in Ht as [_ ->]. split; [done|].
    apply deref_ids_id, children_of_subseteq.
Qed.

(** When entries with the same id are equal, the sequences are those
    entries themselves. *)
Lemma root_nodes_consistent l :
  consistent_ids l → root_nodes (buildForest l) = roots_of l.
Proof.
  intros Hcons. unfold root_nodes. rewrite buildForest_roots.
  by apply deref_ids, roots_of_subseteq.
Qed.

Lemma child_nodes_consistent l k t :
  consistent_ids l → nodeMap (buildForest l) !! k = Some t →
  child_nodes (buildForest l) t = children_of l k.
Proof.
  intros Hcons Ht. unfold child_nodes.
  apply buildForest_lookup_Some in Ht as [_ ->].
  by apply deref_ids, children_of_subseteq.
Qed.
End Forest.

(** * Depths and ancestors in the input list *)

Section Depth.
Implicit Types (l : list DiscussionNode) (n : DiscussionNode) (k r x : ref)
  (d e : nat).

Lemma NoDup_ids_consistent l : NoDup (ids l) → consistent_ids l.
Proof.
  unfold ids. induction l as [|a l IH]; intros Hnd n Hn m Hm Hid.
  - by apply elem_of_nil in Hn.
  - cbn in Hnd. apply NoDup_cons in Hnd as [Ha Hnd].
    apply elem_of_cons in Hn as [->|Hn]; apply elem_of_cons in Hm as [->|Hm].
    + done.
    + destruct Ha. rewrite <- Hid. by apply list_elem_of_fmap_2.
    + destruct Ha. rewrite Hid. by apply list_elem_of_fmap_2.
    + by apply (IH Hnd n Hn m Hm).
Qed.

Lemma depth_inv l n d :
  consistent_ids l → n ∈ l → depth l (id n) d →
  (parentId n = None ∧ d = 0) ∨
  (∃ p d', parentId n = Some p ∧ d = S d' ∧ depth l p d').
Proof.
  intros Hcons Hin Hd.
  inversion Hd as [m Hm Hnone Hid|m p d' Hm Hpar Hp Hid];
    apply (Hcons n Hin) in Hid; try done; subst m.
  - by left.
  - right. eauto.
Qed.

Lemma depth_elem_of l r d : depth l r d → ∃ n, n ∈ l ∧ id n = r.
Proof. destruct 1; eauto. Qed.

Lemma depth_functional l r d d' :
  consistent_ids l → depth l r d → depth l r d' → d = d'.
Proof.
  intros Hcons Hd. revert d'.
  induction Hd as [n Hn Hnone|n p d Hn Hpar _ IH]; intros d' Hd'.
  - destruct (depth_inv l n d' Hcons Hn Hd') as [[_ ->]|(p & e & Hp & _)];
      [done | congruence].
  - destruct (depth_inv l n d' Hcons Hn Hd') as [[Hp _]|(p' & e & Hp & -> & He)];
      [congruence|].
    f_equal. apply IH. congruence.
Qed.

(** The ids on the way from an id to its root are distinct ids of the
    list, so a depth is smaller than the length of the list. *)
Lemma depth_chain l r d :
  consistent_ids l → depth l r d →
  ∃ chain : list string,
    length chain = S d ∧ NoDup chain ∧
    ∀ x, x ∈ chain → x ∈ ids l ∧ ∃ e, e ≤ d ∧ depth l x e.
Proof.
  intros Hcons. induction 1 as [n Hn Hnone|n p d Hn Hpar Hp IH].
  - exists [id n]. split; [done|]. split; [apply NoDup_singleton|].
    intros x ->%list_elem_of_singleton. split.
    + unfold ids. by apply list_elem_of_fmap_2.
    + exists 0. split; [done|]. by apply depth_root.
  - destruct IH as (chain & Hlen & Hnd & Hall).
    assert (Hdn : depth l (id n) (S d)) by (by apply depth_child with p).
    exists (id n :: chain). split; [cbn; by rewrite Hlen|]. split.
    + apply NoDup_cons. split; [|done]. intros Hx.
      destruct (Hall _ Hx) as [_ (e & He & Hde)].
      pose proof (depth_functional l (id n) _ _ Hcons Hdn Hde). lia.
    + intros x [->|Hx]%elem_of_cons.
      * split; [unfold ids; by apply list_elem_of_fmap_2|]. eauto.
      * destruct (Hall _ Hx) as [Hin (e & He & Hde)]. split; [done|].
        exists e. split; [lia | done].
Qed.

Lemma depth_lt_length l r d : NoDup (ids l) → depth l r d → d < length l.
Proof.
  intros Hnd Hd.
  destruct (depth_chain l r d (NoDup_ids_consistent l Hnd) Hd)
    as (chain & Hlen & Hch & Hall).
  assert (Hsub : chain ⊆+ ids l).
  { apply NoDup_submseteq; [done|]. intros x Hx. by apply Hall. }
  apply submseteq_length in Hsub. unfold ids in Hsub.
  rewrite length_fmap in Hsub. lia.
Qed.

Lemma ancestor_depth_le l x k dx dk :
  consistent_ids l → ancestor l x k → depth l x dx → depth l k dk → dk ≤ dx.
Proof.
  intros Hcons Hanc. revert dx.
  induction Hanc as [x|x p k (n & Hn & <- & Hpar) _ IH]; intros dx Hdx Hdk.
  - by rewrite (depth_functional l x dx dk).
  - destruct (depth_inv l n dx Hcons Hn Hdx) as [[Hp _]|(p' & e & Hp & -> & He)];
      [congruence|].
    assert (p' = p) as -> by congruence.
    specialize (IH e He Hdk). lia.
Qed.

(** An id has one ancestor at each depth. *)
Lemma ancestor_unique l x k1 k2 d :
  consistent_ids l → ancestor l x k1 → ancestor l x k2 →
  depth l k1 d → depth l k2 d → k1 = k2.
Proof.
  intros Hcons Hanc1. revert k2.
  induction Hanc1 as [x|x p k1 (n & Hn & <- & Hpar) Hup IH];
    intros k2 Hanc2 Hd1 Hd2.
  - destruct (rtc_inv _ _ Hanc2) as [->|(p & (n & Hn & <- & Hpar) & Hup)];
      [done|].
    destruct (depth_inv l n d Hcons Hn Hd1) as [[Hp _]|(p' & e & Hp & -> & He)];
      [congruence|].
    assert (p' = p) as -> by congruence.
    pose proof (ancestor_depth_le l p k2 e (S e) Hcons Hup He Hd2). lia.
  - destruct (rtc_inv _ _ Hanc2) as [<-|(p2 & (n2 & Hn2 & Hid & Hpar2) & Hup2)].
    + destruct (depth_inv l n d Hcons Hn Hd2) as [[Hp _]|(p' & e & Hp & -> & He)];
        [congruence|].
      assert (p' = p) as -> by congruence.
      pose proof (ancestor_depth_le l p k1 e (S e) Hcons Hup He Hd1). lia.
    + apply (Hcons n Hn) in Hid; [|done]. subst n2.
      assert (p2 = p) as -> by congruence.
      by apply IH.
Qed.
End Depth.

(** * Unfolding the returned forest *)

Lemma tree_nodes_Tr n (ts : list Tree) :
  tree_nodes (Tr n ts) = n :: forest_nodes ts.
Proof.
  cbn. f_equal. unfold forest_nodes.
  induction ts as [|t ts IH]; [done|]. cbn. by rewrite IH.
Qed.

Lemma forest_nodes_cons (t : Tree) (ts : list Tree) :
  forest_nodes (t :: ts) = tree_nodes t ++ forest_nodes ts.
Proof. reflexivity. Qed.

Lemma tree_at_S (m : gmap ref TreeNode) (fuel : nat) r :
  tree_at m (S fuel) r =
    match m !! r with
    | None => None
    | Some t =>
        match mapM (tree_at m fuel) (children t) with
        | None => None
        | Some subtrees => Some (Tr (node t) subtrees)
        end
    end.
Proof. reflexivity. Qed.

(** The nodes of the unfolded forest are the nodes in the forest. *)

Section Unfolding.
Context (m : gmap ref TreeNode).
Implicit Types (n : DiscussionNode) (r c : ref) (t : Tree).

Lemma elem_of_forest_nodes n (ts : list Tree) :
  n ∈ forest_nodes ts ↔ ∃ t, t ∈ ts ∧ n ∈ tree_nodes t.
Proof.
  induction ts as [|t0 ts IH].
  - split; [by intros ?%elem_of_nil|]. intros (t & Ht & _).
    by apply elem_of_nil in Ht.
  - rewrite forest_nodes_cons, elem_of_app, IH. split.
    + intros [Hn|(t & Ht & Hn)]; [exists t0 | exists t];
        (split; [|done]); [by left | by right].
    + intros (t & [->|Ht]%elem_of_cons & Hn); [by left | right; eauto].
Qed.

(** The nodes of an unfolded tree are the columns of the objects below its
    root. *)
Lemma tree_at_nodes (fuel : nat) r t :
  tree_at m fuel r = Some t →
  ∀ n, n ∈ tree_nodes t ↔
       ∃ r' (o : TreeNode), rtc (child_edge m) r r' ∧ m !! r' = Some o ∧ node o = n.
Proof.
  revert r t. induction fuel as [|fuel IH]; intros r t; [done|].
  rewrite tree_at_S. destruct (m !! r) as [t0|] eqn:Hr; [|done].
  destruct (mapM _ (children t0)) as [cs|] eqn:Hcs; [|done].
  intros [= <-] n. apply mapM_Some in Hcs.
  rewrite tree_nodes_Tr, elem_of_cons, elem_of_forest_nodes. split.
  - intros [->|(tc & Htc & Hn)].
    + exists r, t0. split; [apply rtc_refl | done].
    + apply list_elem_of_lookup in Htc as [i Hi].
      pose proof (Forall2_lookup_r _ _ _ _ _ Hcs Hi) as (x & Hx & Hsub).
      cbv beta in Hsub.
      destruct (proj1 (IH x tc Hsub n) Hn) as (r' & t' & Hreach & Ht' & Hnode).
      exists r', t'. split; [|done].
      apply rtc_l with x; [|done]. exists t0. split; [done|].
      by apply list_elem_of_lookup_2 with i.
  - intros (r' & t' & Hreach & Ht' & Hnode).
    destruct (rtc_inv _ _ Hreach) as [<-|(c & (t1 & Ht1 & Hc) & Hreach')].
    + left. congruence.
    + right. assert (t1 = t0) as -> by congruence.
      apply list_elem_of_lookup in Hc as [i Hi].
      pose proof (Forall2_lookup_l _ _ _ _ _ Hcs Hi) as (tc & Htc & Hsub).
      cbv beta in Hsub.
      exists tc. split; [by apply list_elem_of_lookup_2 with i|].
      apply (IH c tc Hsub n). eauto.
Qed.
End Unfolding.

Lemma reachable_rtc (f : Forest) (r' : ref) :
  reachable f r' ↔ ∃ r, r ∈ rootNodes f ∧ rtc (child_edge (nodeMap f)) r r'.
Proof.
  split.
  - induction 1 as [r Hr|p t c _ (r & Hr & Hreach) Hp Hc].
    + exists r. split; [done | apply rtc_refl].
    + exists r. split; [done|]. apply rtc_r with p; [done|]. by exists t.
  - intros (r & Hr%reachable_root & Hreach).
    induction Hreach as [r|r c r' (t & Ht & Hc) _ IH]; [done|].
    apply IH. by apply reachable_child with r t.
Qed.

(** When the returned forest unfolds to finite trees, the nodes in the
    forest are the nodes of those trees. *)
Lemma forest_of_nodes (f : Forest) (fuel : nat) (ts : list Tree) (n : DiscussionNode) :
  forest_of fuel f = Some ts → n ∈ forest_nodes ts ↔ in_forest f n.
Proof.
  unfold forest_of, in_forest. intros Hts%mapM_Some.
  rewrite elem_of_forest_nodes. split.
  - intros (t & Ht & Hn). apply list_elem_of_lookup in Ht as [i Hi].
    pose proof (Forall2_lookup_r _ _ _ _ _ Hts Hi) as (r & Hr & Hsub).
    cbv beta in Hsub.
    destruct (proj1 (tree_at_nodes _ _ _ _ Hsub n) Hn)
      as (r' & t' & Hreach & Ht' & Hnode).
    exists r', t'. split; [|done]. apply reachable_rtc. exists r.
    split; [by apply list_elem_of_lookup_2 with i | done].
  - intros (r' & t' & (r & Hr & Hreach)%reachable_rtc & Ht' & Hnode).
    apply list_elem_of_lookup in Hr as [i Hi].
    pose proof (Forall2_lookup_l _ _ _ _ _ Hts Hi) as (t & Ht & Hsub).
    cbv beta in Hsub.
    exists t. split; [by apply list_elem_of_lookup_2 with i|].
    apply (tree_at_nodes _ _ _ _ Hsub n). eauto.
Qed.

(** * Forest reconstruction: every node exactly once *)

Section ExactlyOnce.
Context (l : list DiscussionNode) (Hnd : NoDup (ids l)).
Implicit Types (n : DiscussionNode) (k r x : ref) (d : nat).

Lemma lookup_node n :
  n ∈ l →
  nodeMap (buildForest l) !! id n =
    Some {| node := n; children := ids (children_of l (id n)) |}.
Proof.
  intros Hn. rewrite buildForest_lookup.
  by rewrite (latest_unique l n Hn (NoDup_ids_consistent l Hnd n Hn)).
Qed.

Lemma children_NoDup k : NoDup (ids (children_of l k)).
Proof.
  apply sublist_NoDup with (ids l); [done|].
  unfold ids, children_of. apply fmap_sublist, sublist_filter.
Qed.

Lemma roots_NoDup : NoDup (rootNodes (buildForest l)).
Proof.
  rewrite buildForest_roots. apply sublist_NoDup with (ids l); [done|].
  unfold ids, roots_of. apply fmap_sublist, sublist_filter.
Qed.

Lemma children_parent_edge k c :
  c ∈ ids (children_of l k) → parent_edge l c k.
Proof. intros (n & Hn & <- & Hpar)%elem_of_children. by exists n. Qed.

Lemma children_depth k d c :
  depth l k d → c ∈ ids (children_of l k) → depth l c (S d).
Proof.
  intros Hd (n & Hn & <- & Hpar)%elem_of_children. by apply depth_child with k.
Qed.

(** The subtrees hanging from distinct keys of one depth: they unfold
    within the fuel left, no id occurs twice in them, and they hold the
    entries that have one of the keys as ancestor. *)
Lemma tree_at_level (fuel : nat) :
  ∀ d (ks : list ref),
    d + fuel = length l → NoDup ks → (∀ k, k ∈ ks → depth l k d) →
    ∃ ts, mapM (tree_at (nodeMap (buildForest l)) fuel) ks = Some ts ∧
          NoDup (id <$> forest_nodes ts) ∧
          ∀ n, n ∈ forest_nodes ts ↔
               n ∈ l ∧ ∃ k, k ∈ ks ∧ ancestor l (id n) k.
Proof.
  pose proof (NoDup_ids_consistent l Hnd) as Hcons.
  assert (Hnil : ∀ f : ref → option Tree,
    ∃ ts, mapM f [] = Some ts ∧ NoDup (id <$> forest_nodes ts) ∧
          ∀ n, n ∈ forest_nodes ts ↔
               n ∈ l ∧ ∃ k, k ∈ @nil ref ∧ ancestor l (id n) k).
  { intros f. exists []. split; [done|]. split; [constructor|].
    intros n. split; [by intros ?%elem_of_nil|].
    intros [_ (k & Hk & _)]. by apply elem_of_nil in Hk. }
  induction fuel as [|fuel IHf]; intros d ks Hsum Hks Hdepth.
  { destruct ks as [|k ks]; [apply Hnil|]. exfalso.
    assert (Hk : depth l k d) by (apply Hdepth; by left).
    pose proof (depth_lt_length l k d Hnd Hk). lia. }
  induction ks as [|k ks IHk]; [apply Hnil|].
  apply NoDup_cons in Hks as [Hk Hks].
  destruct IHk as (ts & Hts & Hnd_ts & Hmem_ts);
    [done | intros; apply Hdepth; by right |].
  assert (Hdk : depth l k d) by (apply Hdepth; by left).
  destruct (depth_elem_of l k d Hdk) as (nk & Hnk & <-).
  destruct (IHf (S d) (ids (children_of l (id nk))))
    as (cts & Hcts & Hnd_cts & Hmem_cts);
    [lia | apply children_NoDup
     | intros c Hc; by apply children_depth with (id nk) |].
  assert (Hup : ∀ n, n ∈ forest_nodes cts → ancestor l (id n) (id nk)).
  { intros n (_ & c & Hc & Hanc)%Hmem_cts.
    eapply rtc_r; [exact Hanc|]. by apply children_parent_edge. }
  assert (Hother : ∀ n, n ∈ forest_nodes ts → ¬ ancestor l (id n) (id nk)).
  { intros n (_ & k' & Hk' & Hanc')%Hmem_ts Hanc.
    assert (id nk = k') as <-; [|done].
    apply (ancestor_unique l (id n) (id nk) k' d); try done.
    apply Hdepth. by right. }
  exists (Tr nk cts :: ts). split; [|split].
  - apply mapM_Some. constructor; [|by apply mapM_Some].
    rewrite tree_at_S, (lookup_node nk Hnk). cbn [children node].
    by rewrite Hcts.
  - rewrite forest_nodes_cons, tree_nodes_Tr, fmap_app, fmap_cons.
    cbn. apply NoDup_cons. split.
    + intros [Hin|Hin]%elem_of_app;
        apply list_elem_of_fmap in Hin as (n & Hid & Hn).
      * apply Hmem_cts in Hn as (_ & c & Hc & Hanc). rewrite <- Hid in Hanc.
        pose proof (children_depth _ _ _ Hdk Hc) as Hdc.
        pose proof (ancestor_depth_le l _ _ _ _ Hcons Hanc Hdk Hdc). lia.
      * apply (Hother n Hn). rewrite <- Hid. apply rtc_refl.
    + apply NoDup_app. split; [done|]. split; [|done].
      intros x (n1 & -> & Hn1)%list_elem_of_fmap (n2 & Hid & Hn2)%list_elem_of_fmap.
      apply (Hother n2 Hn2). rewrite <- Hid. by apply Hup.
  - intros n. rewrite forest_nodes_cons, tree_nodes_Tr.
    rewrite elem_of_app, elem_of_cons, Hmem_cts, Hmem_ts. split.
    + intros [[->|[Hn (c & Hc & Hanc)]]|[Hn (k' & Hk' & Hanc)]].
      * split; [done|]. exists (id nk). split; [by left | apply rtc_refl].
      * split; [done|]. exists (id nk). split; [by left|].
        eapply rtc_r; [exact Hanc|]. by apply children_parent_edge.
      * split; [done|]. exists k'. split; [by right | done].
    + intros [Hn (k' & [->|Hk']%elem_of_cons & Hanc)].
      * left. destruct (rtc_inv_r _ _ Hanc)
          as [Heq|(c & Hanc' & (nc & Hnc & <- & Hpar))].
        -- left. symmetry. by apply (Hcons n Hn nk Hnk).
        -- right. split; [done|]. exists (id nc). split; [|done].
           apply elem_of_children. eauto.
      * right. eauto.
Qed.

Lemma rooted_descend (u n : DiscussionNode) :
  rooted l (id u) → descendant l u n → rooted l (id n).
Proof.
  intros Hu. induction 1 as [d Hd Hpar|d m Hd Hpar _ IH].
  - by apply rooted_child with (id u).
  - by apply rooted_child with (id m).
Qed.

(** Climbing from an entry: either its chain ends at a root, or the
    climb has met [S fuel] entries with distinct ids. *)
Lemma climb (fuel : nat) n :
  parents_resolve l → acyclic l → n ∈ l →
  rooted l (id n) ∨
  ∃ (chain : list DiscussionNode) (u : DiscussionNode),
    length chain = S fuel ∧ NoDup (ids chain) ∧ u ∈ l ∧
    (u = n ∨ descendant l u n) ∧
    ∀ y : DiscussionNode, y ∈ chain → y ∈ l ∧ (y = u ∨ descendant l u y).
Proof.
  pose proof (NoDup_ids_consistent l Hnd) as Hcons.
  intros Hres Hacyc Hn. induction fuel as [|fuel IH].
  { right. exists [n], n. split; [done|]. split; [apply NoDup_singleton|].
    split; [done|]. split; [by left|].
    intros x ->%list_elem_of_singleton. split; [done | by left]. }
  destruct IH as [Hr|(chain & u & Hlen & Hch & Hu & Hun & Hall)]; [by left|].
  destruct (parentId u) as [p|] eqn:Hpar.
  - right. pose proof (Hres u p Hu Hpar) as Hp.
    apply list_elem_of_fmap in Hp as (u' & -> & Hu').
    assert (Hstep : descendant l u' u) by (by apply descendant_child).
    exists (u' :: chain), u'. split; [cbn; by rewrite Hlen|].
    split; [|split; [done|split]].
    + cbn. apply NoDup_cons. split; [|done].
      intros (x & Hid & Hx)%list_elem_of_fmap.
      destruct (Hall x Hx) as [Hxl Hux].
      assert (u' = x) as -> by (by apply (Hcons x Hxl u' Hu')).
      apply (Hacyc u Hu). destruct Hux as [->|Hux]; [done|].
      by apply descendant_trans with x.
    + right. destruct Hun as [<-|Hun]; [done|].
      by apply descendant_trans with u.
    + intros x [->|Hx]%elem_of_cons; [split; [done | by left]|].
      destruct (Hall x Hx) as [Hxl Hux]. split; [done|]. right.
      destruct Hux as [->|Hux]; [done|]. by apply descendant_trans with u.
  - left. assert (Hr : rooted l (id u)) by (by apply rooted_root).
    destruct Hun as [<-|Hun]; [done|]. by apply rooted_descend with u.
Qed.

Lemma acyclic_rooted n :
  parents_resolve l → acyclic l → n ∈ l → rooted l (id n).
Proof.
  intros Hres Hacyc Hn.
  destruct (climb (length l) n Hres Hacyc Hn)
    as [Hr|(chain & u & Hlen & Hch & _ & _ & Hall)]; [done|].
  exfalso. assert (Hsub : ids chain ⊆+ ids l).
  { apply NoDup_submseteq; [done|].
    intros x (y & -> & Hy)%list_elem_of_fmap.
    apply list_elem_of_fmap_2. by apply Hall. }
  apply submseteq_length in Hsub. unfold ids in Hsub.
  rewrite !length_fmap in Hsub. lia.
Qed.
End ExactlyOnce.

(** With pairwise distinct ids the returned forest always unfolds to finite
    trees, cycles in the input or not: they hold, once each, the entries
    whose chain of [parentId] references ends at a root. *)
Lemma forest_unfolds (l : list DiscussionNode) :
  NoDup (ids l) →
  ∃ ts, forest_of (length l) (buildForest l) = Some ts ∧
        NoDup (forest_nodes ts) ∧
        ∀ n, n ∈ forest_nodes ts ↔ n ∈ l ∧ rooted l (id n).
Proof.
  intros Hnd.
  destruct (tree_at_level l Hnd (length l) 0 (rootNodes (buildForest l)))
    as (ts & Hts & Hnd_ts & Hmem); [done | by apply roots_NoDup | |].
  { intros k (n & Hn & <- & Hnone)%elem_of_roots. by apply depth_root. }
  apply NoDup_fmap_1 in Hnd_ts. exists ts. split; [done|]. split; [done|].
  intros n. rewrite (forest_of_nodes _ _ ts n Hts), in_forest_iff. split.
  - intros [Hr Hl]. split; [by apply latest_Some in Hl as [? _] | done].
  - intros [Hn Hr]. split; [done|].
    by apply latest_unique, NoDup_ids_consistent.
Qed.

(** C10 (amended): when the ids of the list are pairwise distinct, every
    present [parentId] is the id of an entry, and no entry lies on a cycle of
    [parentId] references, the returned forest unfolds to finite trees in
    which every entry of the list occurs exactly once (as a root or in one
    children sequence) and nothing else occurs. *)
Theorem every_node_exactly_once (l : list DiscussionNode) :
  NoDup (ids l) → parents_resolve l → acyclic l →
  ∃ ts, forest_of (length l) (buildForest l) = Some ts ∧
        forest_nodes ts ≡ₚ l ∧ NoDup (forest_nodes ts) ∧
        ∀ n, in_forest (buildForest l) n ↔ n ∈ l.
Proof.
  intros Hnd Hres Hacyc.
  destruct (forest_unfolds l Hnd) as (ts & Hts & Hnd_ts & Hmem).
  exists ts.
  assert (Hall : ∀ n, n ∈ forest_nodes ts ↔ n ∈ l).
  { intros n. rewrite Hmem. split; [by intros [? _]|].
    intros Hn. split; [done|]. by apply acyclic_rooted. }
  split; [done|]. split; [|split; [done|]].
  - apply NoDup_Permutation; [done | by apply NoDup_fmap_1 in Hnd | done].
  - intros n. by rewrite <- (forest_of_nodes _ _ ts n Hts).
Qed.

(** * Dangling parents and cycles

    The list [getAllDiscussions] reconstructs is what [find] answers from
    the table, whose [id] column is the generated primary key: the ids of
    the list are pairwise distinct. *)

Section DistinctIds.
Implicit Types (l : list DiscussionNode) (n x d : DiscussionNode).

(** C4: a node whose [parentId] is present and matches no id of the list is
    not in the forest [getAllDiscussions] returns, neither as the object at
    its id nor by its columns; the method returns the forest of the fetched
    list and throws nothing. *)
Theorem dangling_node_excluded l n :
  NoDup (ids l) → n ∈ l → dangling l n →
  absent (buildForest l) n ∧
  ∀ db rows, find_createdAt_DESC db rows = l →
             getAllDiscussions db rows = (inr (buildForest l), rows).
Proof.
  intros Hnd Hn Hd. split.
  - apply dangling_absent; [done|]. by apply NoDup_ids_consistent.
  - intros db rows <-. apply getAllDiscussions_returns.
Qed.

(** C8: when a node has a dangling [parentId], neither it nor any node
    whose chain of [parentId] references passes through it is in the
    returned forest. *)
Theorem descendant_of_dangling_excluded l x d :
  NoDup (ids l) → x ∈ l → dangling l x → descendant l x d →
  absent (buildForest l) x ∧ absent (buildForest l) d.
Proof.
  intros Hnd Hx Hdang Hdesc.
  pose proof (NoDup_ids_consistent l Hnd) as Hcons.
  pose proof (dangling_not_rooted l x (Hcons x Hx) Hdang) as Hnot.
  split; apply not_rooted_absent; [done|].
  intros Hr. apply Hnot. by apply (rooted_descendant l x d).
Qed.


End DistinctIds.

(** * Forest reconstruction: independence of the input order *)

Section OrderIndependence.
Implicit Types (l : list DiscussionNode) (n p c : DiscussionNode) (k r : ref).

Lemma consistent_ids_Permutation l l' :
  l ≡ₚ l' → consistent_ids l → consistent_ids l'.
Proof.
  intros Hperm Hcons n Hn m Hm. rewrite <- Hperm in Hn, Hm. by apply Hcons.
Qed.

Lemma rooted_Permutation l l' r : l ≡ₚ l' → rooted l r → rooted l' r.
Proof.
  intros Hperm. induction 1 as [n Hn Hnone|n q Hn Hpar _ IH];
    rewrite Hperm in Hn.
  - by apply rooted_root.
  - by apply rooted_child with q.
Qed.

Lemma is_root_iff l n :
  consistent_ids l →
  is_root (buildForest l) n ↔ n ∈ l ∧ parentId n = None.
Proof.
  intros Hcons. unfold is_root. rewrite (root_nodes_consistent l Hcons).
  unfold roots_of. rewrite list_elem_of_filter. tauto.
Qed.

Lemma child_of_iff l p c :
  consistent_ids l →
  child_of (buildForest l) p c ↔
    p ∈ l ∧ rooted l (id p) ∧ c ∈ l ∧ parentId c = Some (id p).
Proof.
  intros Hcons. split.
  - intros (r & t & Hr & Ht & <- & Hc).
    rewrite (child_nodes_consistent l r t Hcons Ht) in Hc.
    apply buildForest_lookup_Some in Ht as [Hl _].
    apply latest_Some in Hl as [Hin Hid]. rewrite Hid.
    apply list_elem_of_filter in Hc as [Hpar Hc].
    split; [done|]. split; [by apply reachable_rooted | done].
  - intros (Hp & Hr & Hc & Hpar).
    assert (Ht : nodeMap (buildForest l) !! id p =
                 Some {| node := p; children := ids (children_of l (id p)) |}).
    { by rewrite buildForest_lookup, (latest_unique l p Hp (Hcons p Hp)). }
    eexists (id p), _. split; [by apply reachable_rooted|].
    split; [exact Ht|]. split; [done|].
    rewrite (child_nodes_consistent l _ _ Hcons Ht).
    by apply list_elem_of_filter.
Qed.

Lemma mapM_singleton {A B} (f : A → option B) (a : A) (b : B) :
  f a = Some b → mapM f [a] = Some [b].
Proof. intros Hf. apply mapM_Some. by repeat constructor. Qed.

(** A root, its child and its grandchild, in any order. *)
Lemma chain_forest (a b c : DiscussionNode) l :
  NoDup [id a; id b; id c] →
  parentId a = None → parentId b = Some (id a) → parentId c = Some (id b) →
  l ≡ₚ [a; b; c] →
  forest_of (length l) (buildForest l) = Some [Tr a [Tr b [Tr c []]]].
Proof.
  intros Hnd Ha Hb Hc Hperm.
  assert (id a ≠ id b ∧ id a ≠ id c ∧ id b ≠ id c) as (Hab & Hac & Hbc).
  { apply NoDup_cons in Hnd as [Hn1 Hnd]. apply NoDup_cons in Hnd as [Hn2 _].
    apply not_elem_of_cons in Hn1 as [Hab Hn1].
    apply not_elem_of_cons in Hn1 as [Hac _].
    apply not_elem_of_cons in Hn2 as [Hbc _]. done. }
  assert (Hnd_l : NoDup (ids l)).
  { unfold ids. by rewrite Hperm. }
  assert (a ∈ l ∧ b ∈ l ∧ c ∈ l) as (Hina & Hinb & Hinc).
  { rewrite Hperm, !elem_of_cons. tauto. }
  assert (Hroots : roots_of l = [a]).
  { apply Permutation_singleton_r. unfold roots_of. rewrite Hperm.
    rewrite !filter_cons, filter_nil.
    rewrite decide_True, !decide_False by congruence. done. }
  assert (Hch_a : children_of l (id a) = [b]).
  { apply Permutation_singleton_r. unfold children_of. rewrite Hperm.
    rewrite !filter_cons, filter_nil.
    rewrite (decide_False (P := parentId a = _)) by congruence.
    rewrite (decide_True (P := parentId b = _)) by congruence.
    rewrite (decide_False (P := parentId c = _)) by congruence. done. }
  assert (Hch_b : children_of l (id b) = [c]).
  { apply Permutation_singleton_r. unfold children_of. rewrite Hperm.
    rewrite !filter_cons, filter_nil.
    rewrite (decide_False (P := parentId a = _)) by congruence.
    rewrite (decide_False (P := parentId b = _)) by congruence.
    rewrite (decide_True (P := parentId c = _)) by congruence. done. }
  assert (Hch_c : children_of l (id c) = []).
  { apply Permutation_nil_r. unfold children_of. rewrite Hperm.
    rewrite !filter_cons, filter_nil.
    rewrite !decide_False by congruence. done. }
  unfold forest_of. rewrite buildForest_roots, Hroots.
  apply Permutation_length in Hperm. rewrite Hperm. cbn [length ids fmap list_fmap].
  apply mapM_singleton.
  rewrite tree_at_S, (lookup_node l Hnd_l a Hina), Hch_a. cbn [children node ids fmap list_fmap].
  erewrite mapM_singleton; [done|].
  rewrite tree_at_S, (lookup_node l Hnd_l b Hinb), Hch_b. cbn [children node ids fmap list_fmap].
  erewrite mapM_singleton; [done|].
  rewrite tree_at_S, (lookup_node l Hnd_l c Hinc), Hch_c. done.
Qed.

(** C5: for a list whose ids are pairwise distinct, as the ids of the
    table are, every permutation gives a forest with the same root nodes
    and the same parent-child pairs of nodes; and a root A, its child B and
    B's child C are rebuilt as the one tree A → B → C whatever their order
    in the input. *)
Theorem forest_order_independent :
  (∀ l l', NoDup (ids l) → l ≡ₚ l' →
     (∀ n, is_root (buildForest l) n ↔ is_root (buildForest l') n) ∧
     (∀ p c, child_of (buildForest l) p c ↔ child_of (buildForest l') p c)) ∧
  (∀ a b c l,
     NoDup [id a; id b; id c] →
     parentId a = None → parentId b = Some (id a) → parentId c = Some (id b) →
     l ≡ₚ [a; b; c] →
     forest_of (length l) (buildForest l) = Some [Tr a [Tr b [Tr c []]]]).
Proof.
  split; [|apply chain_forest].
  intros l l' Hnd Hperm.
  pose proof (NoDup_ids_consistent l Hnd) as Hcons.
  pose proof (consistent_ids_Permutation l l' Hperm Hcons) as Hcons'.
  split.
  - intros n. rewrite !is_root_iff by done. by rewrite Hperm.
  - intros p c. rewrite !child_of_iff by done. split.
    + intros (Hp & Hr & Hc & Hpar). rewrite Hperm in Hp, Hc.
      split; [done|]. split; [by apply rooted_Permutation with l | done].
    + intros (Hp & Hr & Hc & Hpar). rewrite <- Hperm in Hp, Hc.
      split; [done|]. split; [by apply rooted_Permutation with l' | done].
Qed.
End OrderIndependence.

(** * The properties on the sample data *)

Lemma chain_list_rooted (n : DiscussionNode) :
  n ∈ [node_C; node_A; node_B] → rooted [node_C; node_A; node_B] (id n).
Proof.
  assert (Ha : rooted [node_C; node_A; node_B] (id node_A)).
  { apply rooted_root; [solve_elem | reflexivity]. }
  assert (Hb : rooted [node_C; node_A; node_B] (id node_B)).
  { apply rooted_child with "A"; [solve_elem | reflexivity | exact Ha]. }
  intros Hn. list_cases Hn; [|done..].
  apply rooted_child with "B"; [solve_elem | reflexivity | exact Hb].
Qed.

Lemma chain_list_NoDup : NoDup (ids [node_C; node_A; node_B]).
Proof. vm_decide. Qed.

Lemma chain_list_resolve : parents_resolve [node_C; node_A; node_B].
Proof.
  intros n p Hn Hp. list_cases Hn; cbn in Hp; try discriminate Hp;
    injection Hp as <-; vm_decide.
Qed.

Lemma chain_list_acyclic : acyclic [node_C; node_A; node_B].
Proof.
  intros n Hn.
  apply (rooted_acyclic _ (id n)); try done.
  - apply NoDup_ids_consistent, chain_list_NoDup.
  - by apply chain_list_rooted.
Qed.

Lemma orphan_list_NoDup : NoDup (ids [node_A; orphan_X; node_D]).
Proof. vm_decide. Qed.

Lemma orphan_list_dangling : dangling [node_A; orphan_X; node_D] orphan_X.
Proof. exists "missing". split; [reflexivity | vm_decide]. Qed.



(** C4, on a root, a node with a missing parent and a child of that node. *)
Lemma dangling_node_excluded_witness :
  NoDup (ids [node_A; orphan_X; node_D]) ∧
  orphan_X ∈ [node_A; orphan_X; node_D] ∧
  dangling [node_A; orphan_X; node_D] orphan_X ∧
  absent (buildForest [node_A; orphan_X; node_D]) orphan_X.
Proof.
  assert (Hin : orphan_X ∈ [node_A; orphan_X; node_D]) by solve_elem.
  split; [exact orphan_list_NoDup|]. split; [exact Hin|].
  split; [exact orphan_list_dangling|].
  exact (proj1 (dangling_node_excluded _ _ orphan_list_NoDup Hin
                  orphan_list_dangling)).
Defined.

(** C8, on the same list: the child of the node with the missing parent is
    absent too. *)
Lemma descendant_of_dangling_excluded_witness :
  NoDup (ids [node_A; orphan_X; node_D]) ∧
  dangling [node_A; orphan_X; node_D] orphan_X ∧
  descendant [node_A; orphan_X; node_D] orphan_X node_D ∧
  absent (buildForest [node_A; orphan_X; node_D]) node_D ∧
  forest_of 3 (buildForest [node_A; orphan_X; node_D]) = Some [Tr node_A []].
Proof.
  assert (Hin : orphan_X ∈ [node_A; orphan_X; node_D]) by solve_elem.
  assert (Hd : descendant [node_A; orphan_X; node_D] orphan_X node_D).
  { apply descendant_child; [solve_elem | reflexivity]. }
  split; [exact orphan_list_NoDup|]. split; [exact orphan_list_dangling|].
  split; [exact Hd|]. split; [|reflexivity].
  exact (proj2 (descendant_of_dangling_excluded _ orphan_X node_D
                  orphan_list_NoDup Hin orphan_list_dangling Hd)).
Defined.


(** C5, on the chain A → B → C given as C, A, B. *)
Lemma forest_order_independent_witness :
  NoDup (ids [node_C; node_A; node_B]) ∧
  [node_C; node_A; node_B] ≡ₚ [node_A; node_B; node_C] ∧
  forest_of 3 (buildForest [node_C; node_A; node_B]) =
    Some [Tr node_A [Tr node_B [Tr node_C []]]] ∧
  (is_root (buildForest [node_C; node_A; node_B]) node_A ↔
   is_root (buildForest [node_A; node_B; node_C]) node_A).
Proof.
  assert (Hperm : [node_C; node_A; node_B] ≡ₚ [node_A; node_B; node_C]).
  { change ([node_C] ++ [node_A; node_B] ≡ₚ [node_A; node_B] ++ [node_C]).
    apply Permutation_app_comm. }
  split; [exact chain_list_NoDup|]. split; [exact Hperm|]. split.
  - apply (proj2 forest_order_independent node_A node_B node_C);
      [vm_decide | reflexivity | reflexivity | reflexivity | exact Hperm].
  - exact (proj1 (proj1 forest_order_independent _ _ chain_list_NoDup Hperm)
             node_A).
Defined.

(** C10, on the chain A → B → C given as C, A, B. *)
Lemma every_node_exactly_once_witness :
  NoDup (ids [node_C; node_A; node_B]) ∧
  parents_resolve [node_C; node_A; node_B] ∧
  acyclic [node_C; node_A; node_B] ∧
  ∃ ts, forest_of 3 (buildForest [node_C; node_A; node_B]) = Some ts ∧
        forest_nodes ts ≡ₚ [node_C; node_A; node_B] ∧
        NoDup (forest_nodes ts) ∧
        ∀ n, in_forest (buildForest [node_C; node_A; node_B]) n ↔
             n ∈ [node_C; node_A; node_B].
Proof.
  split; [exact chain_list_NoDup|]. split; [exact chain_list_resolve|].
  split; [exact chain_list_acyclic|].
  exact (every_node_exactly_once [node_C; node_A; node_B]
           chain_list_NoDup chain_list_resolve chain_list_acyclic).
Defined.

(** C10 as stated fails for a node naming itself as parent: its id is the
    only one, its [parentId] is the id of an entry, and the returned forest
    is empty. *)
Lemma self_parent_absent :
  NoDup (ids [node_S]) ∧
  parents_resolve [node_S] ∧
  (∀ fuel, forest_of fuel (buildForest [node_S]) = Some []) ∧
  absent (buildForest [node_S]) node_S.
Proof.
  split; [vm_decide|]. split; [|split].
  - intros n p Hn Hp. list_cases Hn. cbn in Hp. injection Hp as <-. vm_decide.
  - intros fuel. reflexivity.
  - apply not_rooted_absent. intros Hr.
    assert (Hc : consistent_ids [node_S]).
    { apply NoDup_ids_consistent. vm_decide. }
    apply (rooted_acyclic [node_S] (id node_S) Hc Hr node_S);
      [solve_elem | reflexivity |].
    apply descendant_child; [solve_elem | reflexivity].
Qed.

(** C6, on the chain C, A, B with a second child of A and a second root. *)
Example children_follow_input_order_sample :
  let l := [node_C; sample_child "E" 9 SUBTRACT 1 "A" 20; node_A;
            sample_root "R" 1 21; node_B] in
  root_nodes (buildForest l) = [node_A; sample_root "R" 1 21] ∧
  (∀ t, nodeMap (buildForest l) !! "A" = Some t →
        child_nodes (buildForest l) t =
          [sample_child "E" 9 SUBTRACT 1 "A" 20; node_B]).
Proof.
  split; [reflexivity|]. intros t Ht. vm_compute in Ht.
  injection Ht as <-. reflexivity.
Qed.

(** * The returned forest, node by node *)

(** X7: When entries that share an id are equal, the forest [getAllDiscussions]
    builds from a list holds exactly the entries whose chain of [parentId]
    references ends at a root; its roots are exactly the entries without
    parent; and [c] is a child of [p] in it exactly when [p] is such an
    entry and [c] is an entry that names [p] as parent. *)
Theorem forest_characterised (l : list DiscussionNode) :
  consistent_ids l →
  (∀ n, in_forest (buildForest l) n ↔ n ∈ l ∧ rooted l (id n)) ∧
  (∀ n, is_root (buildForest l) n ↔ n ∈ l ∧ parentId n = None) ∧
  (∀ p c, child_of (buildForest l) p c ↔
          p ∈ l ∧ rooted l (id p) ∧ c ∈ l ∧ parentId c = Some (id p)).
Proof.
  intros Hcons. split; [|split].
  - intros n. rewrite in_forest_iff. split.
    + intros [Hr Hl]. split; [by apply latest_Some in Hl as [? _] | done].
    + intros [Hn Hr]. split; [done|]. apply latest_unique; [done|].
      by apply Hcons.
  - intros n. by apply is_root_iff.
  - intros p c. by apply child_of_iff.
Qed.

Lemma forest_characterised_witness :
  consistent_ids [node_A; orphan_X; node_D] ∧
  (in_forest (buildForest [node_A; orphan_X; node_D]) node_A ↔
   node_A ∈ [node_A; orphan_X; node_D] ∧
   rooted [node_A; orphan_X; node_D] (id node_A)) ∧
  (in_forest (buildForest [node_A; orphan_X; node_D]) node_D ↔
   node_D ∈ [node_A; orphan_X; node_D] ∧
   rooted [node_A; orphan_X; node_D] (id node_D)).
Proof.
  assert (Hcons : consistent_ids [node_A; orphan_X; node_D])
    by exact (NoDup_ids_consistent _ orphan_list_NoDup).
  split; [exact Hcons|].
  split; exact (proj1 (forest_characterised _ Hcons) _).
Defined.

(** * Requests in sequence *)

Section Requests.
Context (db : Database).
Implicit Types (rows l : list DiscussionNode) (n : DiscussionNode) (c : Call).

Lemma calculateResult_inr_iff (v o : number) (op : Operation) :
  (∃ result, calculateResult v op o = inr result) ↔
  op ∈ [ADD; SUBTRACT; MULTIPLY; DIVIDE] ∧
  ¬ (op = DIVIDE ∧ (o =? 0)%float = true).
Proof.
  rewrite calculateResult_cases, !elem_of_cons, elem_of_nil.
  destruct (decide (op = ADD)) as [->|Ha].
  { split; [|eauto]. intros _. split; [tauto|]. by intros [Heq _]. }
  destruct (decide (op = SUBTRACT)) as [->|Hs].
  { split; [|eauto]. intros _. split; [tauto|]. by intros [Heq _]. }
  destruct (decide (op = MULTIPLY)) as [->|Hm].
  { split; [|eauto]. intros _. split; [tauto|]. by intros [Heq _]. }
  destruct (decide (op = DIVIDE)) as [->|Hd].
  - destruct (o =? 0)%float.
    + split; [by intros [? ?] | intros [_ Hn]; by destruct Hn].
    + split; [|eauto]. intros _. split; [tauto|]. by intros [_ Heq].
  - split; [by intros [? ?] | tauto].
Qed.

Lemma findOne_Some (pid : string) rows :
  (∃ p, p ∈ rows ∧ id p = pid) ↔
  ∃ p, List.find (λ n, bool_decide (id n = pid)) rows = Some p.
Proof.
  split.
  - intros (p & Hp & Hid).
    destruct (List.find _ rows) as [q|] eqn:Hfind; [eauto|].
    apply list_elem_of_In in Hp.
    pose proof (find_none _ _ Hfind p Hp) as Hno. cbn in Hno.
    by apply bool_decide_eq_false in Hno.
  - intros [p Hfind]. apply find_some in Hfind as [Hin Heq].
    apply bool_decide_eq_true in Heq. apply list_elem_of_In in Hin. eauto.
Qed.

(** X1: [addOperation] returns a node exactly when a row has the given
    [parentId] and the operation is one of the four, divide by zero apart;
    the node is then the one row added, it names the given parent, carries
    the operation, the operand and the caller, and its value is
    [calculateResult] on the value of the first row with that id. *)
Theorem addOperation_succeeds_iff (userId : string) (dto : AddOperationDto.t) rows :
  ((∃ n, (addOperation db userId dto rows).1 = inr n) ↔
   (∃ p, p ∈ rows ∧ id p = AddOperationDto.parentId dto) ∧
   AddOperationDto.operation dto ∈ [ADD; SUBTRACT; MULTIPLY; DIVIDE] ∧
   ¬ (AddOperationDto.operation dto = DIVIDE ∧
      (AddOperationDto.operand dto =? 0)%float = true)) ∧
  (∀ n, (addOperation db userId dto rows).1 = inr n →
     (addOperation db userId dto rows).2 = rows ++ [n] ∧
     parentId n = Some (AddOperationDto.parentId dto) ∧
     operation n = Some (AddOperationDto.operation dto) ∧
     operand n = Some (AddOperationDto.operand dto) ∧
     authorId n = userId ∧
     ∃ p, List.find (λ m, bool_decide (id m = AddOperationDto.parentId dto)) rows
            = Some p ∧
          calculateResult (value p) (AddOperationDto.operation dto)
            (AddOperationDto.operand dto) = inr (value n)).
Proof.
  rewrite findOne_Some.
  unfold addOperation, bind, findOne, lift, throw, save, create. cbn.
  destruct (List.find _ rows) as [parent|] eqn:Hfind; cbn.
  - pose proof (find_some _ _ Hfind) as [_ Hid%bool_decide_eq_true].
    pose proof (calculateResult_inr_iff (value parent)
                  (AddOperationDto.operand dto) (AddOperationDto.operation dto))
      as Hcalc.
    destruct (calculateResult _ _ _) as [e|result] eqn:Hc; cbn.
    + split.
      * split; [by intros [? ?]|]. intros (_ & Hop & Hnz).
        destruct Hcalc as [_ Hcalc]. by destruct Hcalc as [? ?].
      * by intros n.
    + split.
      * split; [|eauto]. intros _. split; [eauto|]. apply Hcalc. eauto.
      * intros n [= <-]. cbn. rewrite Hid. repeat split; eauto.
  - split; [|by intros n]. split; [by intros [? ?] | by intros ([? ?] & _)].
Qed.

(** X2: No request changes or removes a row: a request leaves the rows it
    found, followed by at most one new row, and the listing adds none. *)
Theorem requests_append_only c rows :
  ∃ new, handle db c rows = rows ++ new ∧ length new ≤ 1 ∧
         (c = GetDiscussions → new = []).
Proof.
  destruct c as [req dto|req dto|]; cbn.
  - eexists [_]. split; [reflexivity|]. split; [done | discriminate].
  - unfold DiscussionsController.addOperation, addOperation, bind, findOne,
      lift, throw, save. cbn.
    destruct (List.find _ rows) as [parent|]; cbn.
    + destruct (calculateResult _ _ _) as [e|result]; cbn.
      * exists []. rewrite app_nil_r. split; [done|]. split; [cbn; lia | discriminate].
      * eexists [_]. split; [reflexivity|]. split; [done | discriminate].
    + exists []. rewrite app_nil_r. split; [done|]. split; [cbn; lia | discriminate].
  - exists []. rewrite app_nil_r. split; [done|]. split; [cbn; lia | done].
Qed.
End Requests.

(** * What a sequence of requests keeps *)

Section Invariants.
Context (db : Database).
Implicit Types (rows l : list DiscussionNode) (n : DiscussionNode) (c : Call)
  (cs : list Call).

Lemma rooted_mono l l' (r : ref) :
  (∀ n, n ∈ l → n ∈ l') → rooted l r → rooted l' r.
Proof.
  intros Hsub. induction 1 as [n Hn Hnone|n p Hn Hpar _ IH].
  - apply rooted_root; [by apply Hsub | done].
  - apply rooted_child with p; [by apply Hsub | done..].
Qed.

Lemma ids_snoc rows n : ids (rows ++ [n]) = ids rows ++ [id n].
Proof. unfold ids. by rewrite fmap_app. Qed.

Lemma NoDup_ids_snoc rows n :
  NoDup (ids rows) → id n ∉ ids rows → NoDup (ids (rows ++ [n])).
Proof.
  intros Hnd Hfresh. rewrite ids_snoc. apply NoDup_app.
  split; [done|]. split; [|apply NoDup_singleton].
  intros x Hx ->%list_elem_of_singleton. by destruct Hfresh.
Qed.

Lemma all_rooted_snoc rows n :
  all_rooted rows →
  (parentId n = None ∨ ∃ p, p ∈ rows ∧ parentId n = Some (id p)) →
  all_rooted (rows ++ [n]).
Proof.
  intros Hall Hn.
  assert (Hsub : ∀ m, m ∈ rows → m ∈ rows ++ [n]).
  { intros m Hm. apply elem_of_app. by left. }
  assert (Hnew : n ∈ rows ++ [n]).
  { apply elem_of_app. right. by apply list_elem_of_singleton. }
  intros m [Hm| ->%list_elem_of_singleton]%elem_of_app.
  - apply rooted_mono with rows; [done | by apply Hall].
  - destruct Hn as [Hnone|(p & Hp & Hpar)].
    + by apply rooted_root.
    + apply rooted_child with (id p); [done..|].
      apply rooted_mono with rows; [done | by apply Hall].
Qed.

(** What one request does to the rows: nothing, or one new row with the id
    the database hands out, without parent or with a row as parent. *)
Lemma handle_cases c rows :
  handle db c rows = rows ∨
  ∃ n, handle db c rows = rows ++ [n] ∧ id n = uuid db rows ∧ paired n ∧
       (parentId n = None ∨ ∃ p, p ∈ rows ∧ parentId n = Some (id p)) ∧
       ∃ req, authorId n = JwtUser.userId (user req) ∧
              (c = PostDiscussion req (CreateDiscussionDto.mk (value n)) ∨
               ∃ dto, c = PostOperation req dto).
Proof.
  destruct c as [req [start]|req dto|]; cbn.
  - right. eexists. split; [reflexivity|]. cbn. split; [done|].
    split; [by left|]. split; [by left|]. exists req. split; [done | by left].
  - unfold DiscussionsController.addOperation, addOperation, bind, findOne,
      lift, throw, save. cbn.
    destruct (List.find _ rows) as [parent|] eqn:Hfind; cbn; [|by left].
    destruct (calculateResult _ _ _) as [e|result]; cbn; [by left|].
    right. eexists. split; [reflexivity|]. cbn. split; [done|].
    split; [right; by repeat split|]. split.
    + right. exists parent. split; [|done].
      apply find_some in Hfind as [Hin _]. by apply list_elem_of_In.
    + exists req. split; [done|]. right. eauto.
  - by left.
Qed.

Lemma run_well_formed cs rows :
  fresh_uuids db →
  NoDup (ids rows) → all_rooted rows → Forall paired rows →
  NoDup (ids (run db cs rows)) ∧ all_rooted (run db cs rows) ∧
  Forall paired (run db cs rows).
Proof.
  intros Hfresh. revert rows.
  induction cs as [|c cs IH]; intros rows Hnd Hroot Hpair; [done|].
  cbn. destruct (handle_cases c rows)
    as [->|(n & -> & Hid & Hp & Hpar & _)]; [by apply IH|].
  apply IH.
  - apply NoDup_ids_snoc; [done|]. rewrite Hid. apply Hfresh.
  - by apply all_rooted_snoc.
  - apply Forall_app. split; [done|]. by apply Forall_singleton.
Qed.

(** X3: With a database that never repeats an id, every request keeps the ids
    of the table pairwise distinct, keeps every row's chain of [parentId]
    references ending at a root, and keeps [operation], [operand] and
    [parentId] present together or absent together in every row. *)
Theorem requests_keep_table_well_formed cs rows :
  fresh_uuids db →
  NoDup (ids rows) → all_rooted rows → Forall paired rows →
  NoDup (ids (run db cs rows)) ∧ all_rooted (run db cs rows) ∧
  Forall paired (run db cs rows).
Proof. apply run_well_formed. Qed.

(** X4: Every row of a table built from nothing carries as author the user of
    one of the posts: no request body sets the author. *)
Theorem authors_are_posters cs n :
  n ∈ run db cs [] → authorId n ∈ posters cs.
Proof.
  assert (Hgen : ∀ rows, n ∈ run db cs rows →
                         n ∈ rows ∨ authorId n ∈ posters cs).
  { induction cs as [|c cs IH]; intros rows Hn; [by left|].
    cbn in Hn. apply IH in Hn as [Hn|Hn].
    - destruct (handle_cases c rows)
        as [Heq|(m & Heq & _ & _ & _ & req & Hauth & Hc)]; rewrite Heq in Hn.
      + by left.
      + apply elem_of_app in Hn as [Hn| ->%list_elem_of_singleton]; [by left|].
        right. rewrite Hauth.
        destruct Hc as [->|[dto ->]]; cbn; by left.
    - right. destruct c; cbn; [by right..|done]. }
  intros Hn. apply Hgen in Hn as [Hn|Hn]; [|done]. by apply elem_of_nil in Hn.
Qed.

Lemma find_snoc {A} (f : A → bool) (xs : list A) (x : A) :
  List.find f (xs ++ [x]) =
    match List.find f xs with
    | Some y => Some y
    | None => if f x then Some x else None
    end.
Proof.
  induction xs as [|a xs IH]; cbn; [done|]. by destruct (f a).
Qed.

(** X5: A node a post has just returned can be named as parent at once: on the
    table the post left, [addOperation] with its id does not throw NotFound,
    and a child it returns names that node as parent. *)
Theorem new_node_found_as_parent c rows n (userId : string)
    (op : Operation) (x : number) :
  uuid db rows ∉ ids rows →
  handle db c rows = rows ++ [n] →
  let after := addOperation db userId (AddOperationDto.mk (id n) op x)
                 (rows ++ [n]) in
  ¬ NotFound after.1 ∧
  (∀ child, after.1 = inr child → parentId child = Some (id n)).
Proof.
  intros Hfresh Hrows.
  assert (Hid : id n = uuid db rows).
  { destruct (handle_cases c rows) as [Heq|(m & Heq & Hm & _)];
      rewrite Hrows in Heq.
    - apply (f_equal length) in Heq. rewrite length_app in Heq. cbn in Heq. lia.
    - apply app_inj_tail in Heq as [_ ->]. done. }
  assert (Hfind : List.find (λ m, bool_decide (id m = id n)) (rows ++ [n])
                  = Some n).
  { rewrite find_snoc.
    destruct (List.find _ rows) as [q|] eqn:Hq.
    - apply find_some in Hq as [Hin Heq%bool_decide_eq_true].
      destruct Hfresh. rewrite <- Hid, <- Heq. unfold ids.
      apply list_elem_of_fmap_2. by apply list_elem_of_In.
    - by rewrite bool_decide_eq_true_2. }
  cbn zeta. unfold addOperation, bind, findOne, lift, throw, save, create. cbn.
  rewrite Hfind. cbn.
  destruct (calculateResult (value n) op x) as [e|result] eqn:Hc; cbn.
  - split; [|done]. intros [msg Hmsg].
    destruct (calculateResult_inl _ _ _ _ Hc) as [msg' ->]. discriminate Hmsg.
  - split; [by intros [msg Hmsg]|]. by intros child [= <-].
Qed.

Lemma ids_without_author l : ids (without_author <$> l) = ids l.
Proof. unfold ids. rewrite <- list_fmap_compose. by apply list_fmap_ext. Qed.

Lemma rooted_without_author l l' (r : ref) :
  without_author <$> l ≡ₚ without_author <$> l' → rooted l r → rooted l' r.
Proof.
  intros Hperm.
  assert (Hsame : ∀ n, n ∈ l → ∃ n', n' ∈ l' ∧ id n' = id n ∧
                                     parentId n' = parentId n).
  { intros n Hn.
    assert (Hin : without_author n ∈ without_author <$> l')
      by (rewrite <- Hperm; by apply list_elem_of_fmap_2).
    apply list_elem_of_fmap in Hin as (n' & Heq & Hn').
    exists n'. split; [done|].
    split; [exact (f_equal id (eq_sym Heq))
           | exact (f_equal parentId (eq_sym Heq))]. }
  induction 1 as [n Hn Hnone|n p Hn Hpar _ IH];
    destruct (Hsame n Hn) as (n' & Hn' & <- & Hp').
  - apply rooted_root; [done | congruence].
  - apply rooted_child with p; [done | congruence | done].
Qed.

(** X6: On a table built from nothing, with a database that never repeats an id
    and lists every row once, the listing returns a forest that unfolds to
    finite trees holding every fetched row exactly once, that is, every row
    of the table with its author loaded. *)
Theorem listing_shows_every_row_once cs :
  fresh_uuids db → lists_rows db →
  let rows := run db cs [] in
  let l := find_createdAt_DESC db rows in
  ∃ ts, getAllDiscussions db rows = (inr (buildForest l), rows) ∧
        forest_of (length l) (buildForest l) = Some ts ∧
        forest_nodes ts ≡ₚ l ∧
        without_author <$> forest_nodes ts ≡ₚ without_author <$> rows.
Proof.
  intros Hfresh Hlists rows l.
  destruct (run_well_formed cs [] Hfresh) as (Hnd & Hroot & _);
    [constructor | by intros n ?%elem_of_nil | constructor |].
  fold rows in Hnd, Hroot. pose proof (Hlists rows) as Hperm. fold l in Hperm.
  assert (Hnd_l : NoDup (ids l)).
  { rewrite <- ids_without_author. unfold ids. rewrite Hperm.
    fold (ids (without_author <$> rows)). by rewrite ids_without_author. }
  assert (Hroot_l : all_rooted l).
  { intros n Hn.
    assert (Hin : without_author n ∈ without_author <$> rows)
      by (rewrite <- Hperm; by apply list_elem_of_fmap_2).
    apply list_elem_of_fmap in Hin as (m & Heq & Hm).
    replace (id n) with (id m) by exact (f_equal id (eq_sym Heq)).
    apply rooted_without_author with rows; [done | by apply Hroot]. }
  destruct (forest_unfolds l Hnd_l) as (ts & Hts & Hnd_ts & Hmem).
  exists ts. split; [reflexivity|]. split; [done|].
  assert (Hall : forest_nodes ts ≡ₚ l).
  { apply NoDup_Permutation; [done | by apply NoDup_fmap_1 in Hnd_l |].
    intros n. rewrite Hmem. split; [by intros [? _]|].
    intros Hn. split; [done | by apply Hroot_l]. }
  split; [done|]. by rewrite Hall.
Qed.
End Invariants.

(** * A database whose ids are fresh *)

Lemma length_append (s1 s2 : string) :
  String.length (String.append s1 s2) = String.length s1 + String.length s2.
Proof. induction s1 as [|a s1 IH]; simpl; [done | by f_equal]. Qed.

Lemma longer_id_longer rows n :
  n ∈ rows → String.length (id n) < String.length (longer_id rows).
Proof.
  induction rows as [|m rows IH]; [by intros ?%elem_of_nil|].
  change (longer_id (m :: rows)) with (String.append (id m) (longer_id rows)).
  rewrite length_append.
  intros [->|Hn]%elem_of_cons.
  - assert (0 < String.length (longer_id rows)); [|lia].
    clear IH. induction rows as [|k rows IH]; [cbn; lia|].
    change (longer_id (k :: rows))
      with (String.append (id k) (longer_id rows)).
    rewrite length_append. lia.
  - apply IH in Hn. lia.
Qed.

Lemma fresh_db_fresh : fresh_uuids fresh_db.
Proof.
  intros rows Hin. apply list_elem_of_fmap in Hin as (n & Heq & Hn).
  apply longer_id_longer in Hn. cbn in Heq. rewrite <- Heq in Hn. lia.
Qed.

Lemma fresh_db_lists : lists_rows fresh_db.
Proof. intros rows. cbn. by rewrite reverse_Permutation. Qed.

Lemma requests_keep_table_well_formed_witness :
  fresh_uuids fresh_db ∧
  NoDup (ids (run fresh_db sample_calls [])) ∧
  all_rooted (run fresh_db sample_calls []) ∧
  Forall paired (run fresh_db sample_calls []).
Proof.
  split; [exact fresh_db_fresh|].
  apply (requests_keep_table_well_formed fresh_db sample_calls []
           fresh_db_fresh).
  - constructor.
  - intros n Hn. by apply elem_of_nil in Hn.
  - constructor.
Defined.

Lemma authors_are_posters_witness :
  first_node ∈ run fresh_db sample_calls [] ∧
  authorId first_node ∈ posters sample_calls.
Proof.
  assert (H : first_node ∈ run fresh_db sample_calls [])
    by apply list_elem_of_here.
  split; [exact H|].
  exact (authors_are_posters fresh_db sample_calls first_node H).
Defined.

Lemma new_node_found_as_parent_witness :
  (uuid fresh_db [] ∉ ids []) ∧
  handle fresh_db (PostDiscussion alice (CreateDiscussionDto.mk 10)) []
    = [] ++ [first_node] ∧
  ¬ NotFound (addOperation fresh_db "bob-id"
                (AddOperationDto.mk (id first_node) ADD 5)
                ([] ++ [first_node])).1.
Proof.
  assert (H : uuid fresh_db [] ∉ ids []) by apply not_elem_of_nil.
  split; [exact H|]. split; [reflexivity|].
  exact (proj1 (new_node_found_as_parent fresh_db
                  (PostDiscussion alice (CreateDiscussionDto.mk 10)) []
                  first_node "bob-id" ADD 5 H eq_refl)).
Defined.

Lemma listing_shows_every_row_once_witness :
  fresh_uuids fresh_db ∧ lists_rows fresh_db ∧
  ∃ ts, forest_of (length (find_createdAt_DESC fresh_db
                             (run fresh_db sample_calls [])))
          (buildForest (find_createdAt_DESC fresh_db
                          (run fresh_db sample_calls []))) = Some ts ∧
        without_author <$> forest_nodes ts ≡ₚ
        without_author <$> run fresh_db sample_calls [].
Proof.
  split; [exact fresh_db_fresh|]. split; [exact fresh_db_lists|].
  destruct (listing_shows_every_row_once fresh_db sample_calls
              fresh_db_fresh fresh_db_lists) as (ts & _ & Hts & _ & Hperm).
  exists ts. by split.
Defined.

(** * The guide's listing against the service's *)

Lemma Map_of_entries_set_nodes l :
  Map_of_entries ((λ node, (id node, {| node := node; children := [] |})) <$> l)
  = forEach set_node l ∅.
Proof.
  unfold Map_of_entries, forEach. generalize (∅ : gmap ref TreeNode).
  induction l as [|x l IH]; intros m; [done|]. cbn. apply IH.
Qed.

Lemma children_guide_nil k : children_guide [] k = [].
Proof. unfold children_guide. by destruct (truthy k). Qed.

Lemma children_guide_cons x l k :
  children_guide (x :: l) k =
    if decide (parentId x = Some k ∧ k ≠ "") then x :: children_guide l k
    else children_guide l k.
Proof.
  unfold children_guide, truthy, children_of. rewrite filter_cons.
  case_bool_decide as Hk.
  - destruct (decide (parentId x = Some k)) as [Hp|Hp].
    + by rewrite decide_True.
    + rewrite decide_False; [done|]. by intros [? _].
  - rewrite decide_False; [done|]. by intros [_ ?].
Qed.

(** The guide's loop: the [children] arrays; the copied columns stay. *)
Lemma links_guide_lookup l (m : gmap ref TreeNode) k :
  forEach link_guide l m !! k =
    (λ t, {| node := node t;
             children := children t ++ ids (children_guide l k) |})
      <$> m !! k.
Proof.
  revert m. induction l as [|x l IH]; intros m.
  - rewrite children_guide_nil. cbn.
    destruct (m !! k) as [[n cs]|]; cbn; [|done]. by rewrite app_nil_r.
  - rewrite forEach_cons, IH, children_guide_cons. unfold link_guide, truthy.
    destruct (parentId x) as [pid|] eqn:Hp.
    + case_bool_decide as Hpid.
      * destruct (m !! pid) as [parent|] eqn:Hpar; cbn.
        -- rewrite lookup_insert. case_decide as Hk.
           ++ subst pid. rewrite Hpar, decide_True by done. cbn.
              by rewrite <- app_assoc.
           ++ rewrite decide_False; [done|]. intros [[= ->] _]. done.
        -- destruct (decide (Some pid = Some k ∧ k ≠ "")) as [[[= ->] _]|Hne];
             [|done].
           by rewrite Hpar.
      * rewrite decide_False; [done|]. intros [[= ->] Hk]. done.
    + rewrite decide_False; [done|]. by intros [? _].
Qed.

Lemma buildForest_guide_lookup l k :
  nodeMap (buildForest_guide l) !! k =
    (λ n, {| node := n; children := ids (children_guide l k) |}) <$> latest l k.
Proof.
  unfold buildForest_guide. cbn.
  rewrite links_guide_lookup, Map_of_entries_set_nodes, set_nodes_lookup,
    lookup_empty.
  by destruct (latest l k).
Qed.

Lemma mapM_ext_in {A B} (f g : A → option B) (xs : list A) :
  (∀ x, x ∈ xs → f x = g x) → mapM f xs = mapM g xs.
Proof.
  intros Hext.
  assert (Hto : ∀ (f g : A → option B) ys,
            (∀ x, x ∈ xs → f x = g x) →
            mapM f xs = Some ys → mapM g xs = Some ys).
  { clear f g Hext. intros f g ys Hext Hf. apply mapM_Some.
    apply mapM_Some in Hf. clear -Hext Hf.
    induction Hf as [|x y xs ys Hxy _ IH]; constructor.
    - rewrite <- Hext; [done | by left].
    - apply IH. intros z Hz. apply Hext. by right. }
  destruct (mapM f xs) as [ys|] eqn:Hf.
  - symmetry. by apply (Hto f g).
  - destruct (mapM g xs) as [ys|] eqn:Hg; [|done].
    rewrite (Hto g f ys) in Hf; [done | | done].
    intros x Hx. symmetry. by apply Hext.
Qed.

(** Two maps that hold the same objects at the keys one can reach unfold to
    the same trees. *)
Lemma tree_at_agree (m m' : gmap ref TreeNode) (P : ref → Prop) :
  (∀ r, P r → m' !! r = m !! r) →
  (∀ r t c, P r → m !! r = Some t → c ∈ children t → P c) →
  ∀ fuel r, P r → tree_at m' fuel r = tree_at m fuel r.
Proof.
  intros Hagree Hclosed. induction fuel as [|fuel IH]; intros r Hr; [done|].
  rewrite !tree_at_S, (Hagree r Hr).
  destruct (m !! r) as [t|] eqn:Ht; [|done].
  rewrite (mapM_ext_in (tree_at m' fuel) (tree_at m fuel)); [done|].
  intros c Hc. apply IH. by apply (Hclosed r t c).
Qed.

(** X8: On a list with pairwise distinct ids, the forest of the service
    unfolds to finite trees, and the guide's [getAllDiscussions] returns
    the same trees, except exactly when the entry whose id is the empty
    string is in the forest and some entry names it as parent: the guide's
    test [if (node.parentId)] skips such a child, the service's [=== null]
    links it. *)
Theorem guide_listing_agrees l :
  NoDup (ids l) →
  (∃ ts, forest_of (length l) (buildForest l) = Some ts) ∧
  ((∀ fuel, forest_of fuel (buildForest_guide l)
            = forest_of fuel (buildForest l)) ↔
   ¬ (rooted l "" ∧ ∃ n, n ∈ l ∧ parentId n = Some "")).
Proof.
  intros Hnd. pose proof (NoDup_ids_consistent l Hnd) as Hcons.
  destruct (forest_unfolds l Hnd) as (ts & Hts & _ & Hmem).
  split; [by exists ts|]. split.
  - intros Hall (Hroot & c & Hc & Hpar).
    assert (Hin : c ∈ forest_nodes ts).
    { apply Hmem. split; [done|]. by apply rooted_child with "". }
    rewrite <- (Hall (length l)) in Hts.
    apply (forest_of_nodes _ _ ts c Hts) in Hin
      as (r & t & Hreach & Ht & Hnode).
    rewrite buildForest_guide_lookup in Ht.
    destruct (latest l r) as [x|] eqn:Hx; [|done].
    cbn in Ht. injection Ht as <-. cbn in Hnode. subst x.
    apply latest_Some in Hx as [_ <-].
    inversion Hreach as [r' Hr' Heq|p t' c' _ Hp Hch Heq].
    + change (id c ∈ id <$> filter (λ node, parentId node = None) l) in Hr'.
      apply list_elem_of_fmap in Hr' as (n & Hid & Hn).
      apply list_elem_of_filter in Hn as [Hnone Hn].
      assert (n = c) as -> by (by apply (Hcons c Hc n Hn)).
      congruence.
    + rewrite buildForest_guide_lookup in Hp.
      destruct (latest l p) as [x|]; [|done].
      cbn in Hp. injection Hp as <-. cbn in Hch.
      unfold children_guide, truthy in Hch.
      case_bool_decide as Hne; [|by apply elem_of_nil in Hch].
      apply elem_of_children in Hch as (n & Hn & Hid & Hpar').
      assert (n = c) as -> by (by apply (Hcons c Hc n Hn)).
      congruence.
  - intros Hno fuel. unfold forest_of.
    assert (Hroots : rootNodes (buildForest_guide l) = rootNodes (buildForest l))
      by (by rewrite buildForest_roots).
    rewrite Hroots. apply mapM_ext_in. intros r Hr.
    apply (tree_at_agree _ _ (reachable (buildForest l))).
    + intros k Hk. rewrite buildForest_guide_lookup, buildForest_lookup.
      destruct (latest l k) as [x|]; [|done]. cbn. do 2 f_equal.
      unfold children_guide, truthy. case_bool_decide as Hne; [done|].
      assert (k = "") as -> by (by destruct (decide (k = ""))).
      destruct (children_of l "") as [|c cs] eqn:Hcs; [done|].
      destruct Hno. split; [by apply reachable_rooted|]. exists c.
      assert (Hc : c ∈ children_of l "") by (rewrite Hcs; by left).
      by apply list_elem_of_filter in Hc as [? ?].
    + intros k t c Hk Ht Hc. by apply reachable_child with k t.
    + by apply reachable_root.
Qed.

(** X8, on a root whose id is the empty string and a child of it: the
    service returns the child under the root, the guide the root alone. *)
Lemma guide_listing_agrees_witness :
  NoDup (ids [node_empty_id; node_under_empty]) ∧
  forest_of 2 (buildForest [node_empty_id; node_under_empty])
    = Some [Tr node_empty_id [Tr node_under_empty []]] ∧
  forest_of 2 (buildForest_guide [node_empty_id; node_under_empty])
    = Some [Tr node_empty_id []] ∧
  ¬ (∀ fuel,
       forest_of fuel (buildForest_guide [node_empty_id; node_under_empty])
       = forest_of fuel (buildForest [node_empty_id; node_under_empty])).
Proof.
  assert (Hnd : NoDup (ids [node_empty_id; node_under_empty])) by vm_decide.
  split; [exact Hnd|]. split; [reflexivity|]. split; [reflexivity|].
  intros Hall.
  apply (proj1 (proj2 (guide_listing_agrees _ Hnd)) Hall). split.
  - apply (rooted_root _ node_empty_id); [solve_elem | reflexivity].
  - exists node_under_empty. split; [solve_elem | reflexivity].
Defined.

(** * The database options of the application module *)

Lemma getRequiredEnvVar_cases env name :
  (is_set env name = true ∧
   ∃ value, env !! name = Some value ∧ value ≠ "" ∧
            getRequiredEnvVar env name = inr value) ∨
  (is_set env name = false ∧
   getRequiredEnvVar env name = inl (mkError (not_set_message name))).
Proof.
  unfold is_set, getRequiredEnvVar, truthy.
  destruct (env !! name) as [value|]; [|by right].
  case_bool_decide; [left | by right]. split; [done|]. by exists value.
Qed.

(** X10: The options object is built exactly when the five variables are set to
    non-empty values, and then holds them, the port parsed; otherwise
    building it throws the error that names the first of DB_HOST, DB_PORT,
    DB_USERNAME, DB_PASSWORD, DB_NAME that is unset or empty. *)
Theorem typeOrmOptions_first_unset (parseInt : string → number)
    (env : gmap string string) :
  match List.find (λ name, negb (is_set env name)) required_variables with
  | Some name =>
      typeOrmOptions parseInt env = inl (mkError (not_set_message name))
  | None =>
      ∃ host port username password database,
        env !! "DB_HOST" = Some host ∧ host ≠ "" ∧
        env !! "DB_PORT" = Some port ∧ port ≠ "" ∧
        env !! "DB_USERNAME" = Some username ∧ username ≠ "" ∧
        env !! "DB_PASSWORD" = Some password ∧ password ≠ "" ∧
        env !! "DB_NAME" = Some database ∧ database ≠ "" ∧
        typeOrmOptions parseInt env =
          inr {| TypeOrmOptions.type := "postgres";
                 TypeOrmOptions.host := host;
                 TypeOrmOptions.port := parseInt port;
                 TypeOrmOptions.username := username;
                 TypeOrmOptions.password := password;
                 TypeOrmOptions.database := database;
                 TypeOrmOptions.synchronize := true;
                 TypeOrmOptions.logging := false |}
  end.
Proof.
  unfold typeOrmOptions, required_variables. cbn [List.find].
  destruct (getRequiredEnvVar_cases env "DB_HOST")
    as [(-> & host & ? & ? & ->)|[-> ->]]; cbn [negb]; [|done].
  destruct (getRequiredEnvVar_cases env "DB_PORT")
    as [(-> & port & ? & ? & ->)|[-> ->]]; cbn [negb]; [|done].
  destruct (getRequiredEnvVar_cases env "DB_USERNAME")
    as [(-> & username & ? & ? & ->)|[-> ->]]; cbn [negb]; [|done].
  destruct (getRequiredEnvVar_cases env "DB_PASSWORD")
    as [(-> & password & ? & ? & ->)|[-> ->]]; cbn [negb]; [|done].
  destruct (getRequiredEnvVar_cases env "DB_NAME")
    as [(-> & database & ? & ? & ->)|[-> ->]]; cbn [negb]; [|done].
  exists host, port, username, password, database. by repeat split.
Qed.

(** * Behind the validation pipe *)

Section Validated.
Context (db : Database) (IsUUID : string → bool).

(** X9: A body the validation pipe lets through makes [addOperation] fail in
    two ways only: no row has the [parentId], or the operation is a division
    by zero; the exception for an unknown operation cannot be reached. *)
Theorem validated_operation_errors (userId : string) (dto : AddOperationDto.t)
    rows (e : HttpException) :
  AddOperationDto_valid IsUUID dto = true →
  (addOperation db userId dto rows).1 = inl e →
  (e = NotFoundException "Parent node not found" ∧
   AddOperationDto.parentId dto ∉ ids rows) ∨
  (e = BadRequestException "Division by zero is not allowed" ∧
   AddOperationDto.operation dto = DIVIDE ∧
   (AddOperationDto.operand dto =? 0)%float = true ∧
   AddOperationDto.parentId dto ∈ ids rows).
Proof.
  unfold AddOperationDto_valid, IsEnum_Operation.
  intros [[_ Hop%bool_decide_eq_true]%andb_prop _]%andb_prop.
  unfold addOperation, bind, findOne, lift, throw, save, create. cbn.
  destruct (List.find _ rows) as [parent|] eqn:Hfind; cbn.
  - apply find_some in Hfind as [Hin Hid%bool_decide_eq_true].
    unfold calculateResult.
    repeat (case_decide; [by intros ?|]).
    case_decide as Hd.
    + destruct (AddOperationDto.operand dto =? 0)%float eqn:Hz; [|by intros ?].
      intros [= <-]. right. repeat split; [done..|].
      rewrite <- Hid. unfold ids. apply list_elem_of_fmap_2.
      by apply list_elem_of_In.
    + rewrite !elem_of_cons, elem_of_nil in Hop. tauto.
  - intros [= <-]. left. split; [done|].
    intros (p & Hid & Hp)%list_elem_of_fmap.
    apply list_elem_of_In in Hp.
    pose proof (find_none _ _ Hfind p Hp) as Hno. cbn in Hno.
    by apply bool_decide_eq_false in Hno.
Qed.
End Validated.

Lemma validated_operation_errors_witness :
  AddOperationDto_valid (λ _, true) (AddOperationDto.mk "x" DIVIDE 0) = true ∧
  (addOperation fresh_db "bob-id" (AddOperationDto.mk "x" DIVIDE 0)
     [first_node]).1
    = inl (BadRequestException "Division by zero is not allowed") ∧
  ((BadRequestException "Division by zero is not allowed"
      = NotFoundException "Parent node not found" ∧
    "x" ∉ ids [first_node]) ∨
   (BadRequestException "Division by zero is not allowed"
      = BadRequestException "Division by zero is not allowed" ∧
    DIVIDE = DIVIDE ∧ (0 =? 0)%float = true ∧ "x" ∈ ids [first_node])).
Proof.
  split; [reflexivity|]. split; [reflexivity|].
  exact (validated_operation_errors fresh_db (λ _, true) "bob-id"
           (AddOperationDto.mk "x" DIVIDE 0) [first_node] _ eq_refl eq_refl).
Defined.

(** * The browser side *)

(** X14: The tree shows a symbol for an operation exactly when the service
    computes with it, and shows different symbols for different
    operations. *)
Theorem symbol_shown_iff_computed (op : string) :
  (getOperationSymbol op ≠ "" ↔
   ∃ v o result, calculateResult v op o = inr result) ∧
  (∀ op', getOperationSymbol op ≠ "" →
          getOperationSymbol op' = getOperationSymbol op → op' = op).
Proof.
  split.
  - split.
    + intros Hsym. exists 0%float, 1%float.
      unfold getOperationSymbol in Hsym. fold ADD SUBTRACT MULTIPLY DIVIDE in Hsym.
      destruct (decide (op = ADD)) as [->|]; [by exists (0 + 1)%float|].
      destruct (decide (op = SUBTRACT)) as [->|]; [by exists (0 - 1)%float|].
      destruct (decide (op = MULTIPLY)) as [->|]; [by exists (0 * 1)%float|].
      destruct (decide (op = DIVIDE)) as [->|]; [by exists (0 / 1)%float|].
      done.
    + intros (v & o & result & Hc).
      destruct (proj1 (calculateResult_inr_iff v o op)) as [Hop _]; [eauto|].
      rewrite !elem_of_cons, elem_of_nil in Hop.
      destruct Hop as [->|[->|[->|[->|[]]]]]; done.
  - intros op'. unfold getOperationSymbol.
    repeat case_decide; subst; done.
Qed.

(** X15: In a browser, a token handed to [setToken] is the token [getToken]
    answers, at once and after the page is loaded again; [null] and the
    empty string both clear it. *)
Theorem token_survives_reload (tok cur : option string)
    (storage : gmap string string) :
  let w := ApiClient.mkWorld cur (Some storage) in
  let kept := if ApiClient.truthy_token tok then tok else None in
  (ApiClient.setToken tok w).1 = inr () ∧
  (ApiClient.getToken (ApiClient.setToken tok w).2).1 = kept ∧
  (ApiClient.getToken (ApiClient.reload (ApiClient.setToken tok w).2)).1 = kept.
Proof.
  unfold ApiClient.setToken, ApiClient.getToken, ApiClient.reload. cbn.
  destruct tok as [s|]; cbn.
  - destruct (truthy s) eqn:Hs; cbn; rewrite ?Hs; cbn.
    + by rewrite lookup_insert_eq.
    + by rewrite lookup_delete_eq.
  - by rewrite lookup_delete_eq.
Qed.

(** * Users and authentication *)

Section Auth.
Context (env : AuthEnv).
Implicit Types (users : list User.t) (u : User.t) (c : AuthCall)
  (cs : list AuthCall).

Lemma findByUsername_None (username : string) users :
  UsersService.findByUsername username users = None ↔
  username ∉ usernames users.
Proof.
  unfold UsersService.findByUsername, usernames. split.
  - intros Hfind (u & -> & Hu)%list_elem_of_fmap.
    apply list_elem_of_In in Hu.
    pose proof (find_none _ _ Hfind u Hu) as Hno. cbn in Hno.
    by apply bool_decide_eq_false in Hno.
  - intros Hno. destruct (List.find _ users) as [u|] eqn:Hfind; [|done].
    apply find_some in Hfind as [Hin Heq%bool_decide_eq_true].
    destruct Hno. rewrite <- Heq. apply list_elem_of_fmap_2.
    by apply list_elem_of_In.
Qed.

Lemma find_app_Some {A} (f : A → bool) (xs ys : list A) (x : A) :
  List.find f xs = Some x → List.find f (xs ++ ys) = Some x.
Proof.
  induction xs as [|a xs IH]; cbn; [done|]. by destruct (f a).
Qed.

(** What [register] does: a conflict and nothing written, or one new row
    with a new id, the name and the hash of the password. *)
Lemma register_cases (dto : RegisterDto.t) users :
  (RegisterDto.username dto ∈ usernames users ∧
   AuthService.register env dto users
     = (inl (ConflictException "Username already exists"), users)) ∨
  ((RegisterDto.username dto ∉ usernames users) ∧
   ∃ u, User.id u = user_uuid env users ∧
        User.username u = RegisterDto.username dto ∧
        User.password u = bcrypt_hash env users (RegisterDto.password dto) ∧
        AuthService.register env dto users
          = (inr {| AuthResponse.access_token :=
                      jwt_sign env {| JwtPayload.username := User.username u;
                                      JwtPayload.sub := User.id u |};
                    AuthResponse.user :=
                      {| UserInfo.id := User.id u;
                         UserInfo.username := User.username u |} |},
             users ++ [u])).
Proof.
  unfold AuthService.register.
  destruct (UsersService.findByUsername _ users) as [existing|] eqn:Hfind.
  - left. split; [|done].
    destruct (decide (RegisterDto.username dto ∈ usernames users)) as [|Hno];
      [done|].
    apply findByUsername_None in Hno. congruence.
  - right. apply findByUsername_None in Hfind. split; [done|].
    unfold UsersService.create, UsersService.save.
    rewrite bool_decide_eq_false_2 by done.
    by exists {| User.id := user_uuid env users;
                 User.username := RegisterDto.username dto;
                 User.password :=
                   bcrypt_hash env users (RegisterDto.password dto);
                 User.createdAt := user_now env users |}.
Qed.

Lemma auth_handle_cases c users :
  auth_handle env c users = users ∨
  ∃ u, auth_handle env c users = users ++ [u] ∧
       User.id u = user_uuid env users ∧
       (User.username u ∉ usernames users) ∧
       ∃ password, User.password u = bcrypt_hash env users password ∧
                   c = PostRegister (RegisterDto.mk (User.username u) password).
Proof.
  destruct c as [[name password]|dto]; cbn.
  - destruct (register_cases (RegisterDto.mk name password) users)
      as [[_ ->]|(Hno & u & Hid & Hname & Hpw & ->)]; cbn; [by left|].
    cbn in Hno, Hname, Hpw. right. exists u. split; [done|]. split; [done|].
    split; [by rewrite Hname|]. exists password. by rewrite Hname.
  - left. unfold AuthService.login.
    destruct (UsersService.findByUsername _ users) as [u|]; [|done].
    by destruct (UsersService.validatePassword env u _).
Qed.

Lemma auth_run_cons c cs users :
  auth_run env (c :: cs) users = auth_run env cs (auth_handle env c users).
Proof. reflexivity. Qed.

Lemma auth_run_appends cs users :
  ∃ new, auth_run env cs users = users ++ new.
Proof.
  revert users. induction cs as [|c cs IH]; intros users.
  - exists []. by rewrite app_nil_r.
  - rewrite auth_run_cons.
    destruct (auth_handle_cases c users) as [->|(u & -> & _)]; [by apply IH|].
    destruct (IH (users ++ [u])) as [new ->]. exists (u :: new).
    by rewrite <- app_assoc.
Qed.



(** The row a successful [register] wrote is the first with its name and,
    when the id was new, the first with its id, also after later requests. *)
Lemma registered_user_found (dto : RegisterDto.t) users
    (resp : AuthResponse.t) cs :
  (AuthService.register env dto users).1 = inr resp →
  let users' := auth_run env cs (AuthService.register env dto users).2 in
  ∃ u, UsersService.findByUsername (RegisterDto.username dto) users' = Some u ∧
       User.username u = RegisterDto.username dto ∧
       User.password u = bcrypt_hash env users (RegisterDto.password dto) ∧
       AuthResponse.user resp
         = {| UserInfo.id := User.id u; UserInfo.username := User.username u |} ∧
       AuthResponse.access_token resp
         = jwt_sign env {| JwtPayload.username := User.username u;
                           JwtPayload.sub := User.id u |} ∧
       (user_uuid env users ∉ user_ids users →
        UsersService.findById (User.id u) users' = Some u).
Proof.
  destruct (register_cases dto users)
    as [[_ ->]|(Hno & u & Hid & Hname & Hpw & ->)]; [done|].
  cbn. intros [= <-]. cbn.
  destruct (auth_run_appends cs (users ++ [u])) as [new ->].
  exists u. split; [|repeat split; try done].
  - apply find_app_Some. unfold UsersService.findByUsername.
    rewrite find_snoc. apply findByUsername_None in Hno.
    unfold UsersService.findByUsername in Hno. rewrite Hno.
    by rewrite bool_decide_eq_true_2.
  - intros Hfresh. apply find_app_Some. unfold UsersService.findById.
    rewrite find_snoc.
    destruct (List.find _ users) as [q|] eqn:Hq.
    + apply find_some in Hq as [Hin Heq%bool_decide_eq_true].
      destruct Hfresh. rewrite <- Hid, <- Heq. apply list_elem_of_fmap_2.
      by apply list_elem_of_In.
    + by rewrite bool_decide_eq_true_2.
Qed.

(** X12: A user who has registered can log in with the same name and password,
    whatever registrations and logins came in between, provided bcrypt
    accepts a password against its own hash; the login answers the same
    user and writes nothing. *)
Theorem register_then_login (dto : RegisterDto.t) users
    (resp : AuthResponse.t) cs :
  bcrypt_sound env →
  (AuthService.register env dto users).1 = inr resp →
  let users' := auth_run env cs (AuthService.register env dto users).2 in
  ∃ resp',
    AuthService.login env
      (LoginDto.mk (RegisterDto.username dto) (RegisterDto.password dto)) users'
      = (inr resp', users') ∧
    AuthResponse.user resp' = AuthResponse.user resp.
Proof.
  intros Hsound Hreg users'.
  destruct (registered_user_found dto users resp cs Hreg)
    as (u & Hfind & _ & Hpw & Huser & _).
  fold users' in Hfind. unfold AuthService.login. cbn. rewrite Hfind.
  unfold UsersService.validatePassword. rewrite Hpw, Hsound.
  eexists. split; [reflexivity|]. by rewrite Huser.
Qed.

(** X13: A user who posts with the token [register] gave them is let through by
    the guard as themselves, whatever registrations and logins came in
    between, and the nodes they then create carry their user id as
    [authorId]; this needs the id of the new user to be new and the token to
    read back as its payload. *)
Theorem registered_user_authors_own_nodes (dto : RegisterDto.t) users
    (resp : AuthResponse.t) cs :
  user_uuid env users ∉ user_ids users →
  (AuthService.register env dto users).1 = inr resp →
  jwt_round_trip env
    {| JwtPayload.username := RegisterDto.username dto;
       JwtPayload.sub := UserInfo.id (AuthResponse.user resp) |} →
  let users' := auth_run env cs (AuthService.register env dto users).2 in
  ∃ req,
    AuthGuard env (AuthResponse.access_token resp) users' = inr req ∧
    JwtUser.userId (user req) = UserInfo.id (AuthResponse.user resp) ∧
    JwtUser.username (user req) = RegisterDto.username dto ∧
    (∀ db d rows, ∃ n,
       (DiscussionsController.createDiscussion db req d rows).1 = inr n ∧
       authorId n = UserInfo.id (AuthResponse.user resp)) ∧
    (∀ db d rows n,
       (DiscussionsController.addOperation db req d rows).1 = inr n →
       authorId n = UserInfo.id (AuthResponse.user resp)).
Proof.
  intros Hfresh Hreg Htoken users'.
  destruct (registered_user_found dto users resp cs Hreg)
    as (u & _ & Hname & _ & Huser & Htok & Hfind).
  specialize (Hfind Hfresh). fold users' in Hfind.
  rewrite Huser in Htoken |- *. cbn in Htoken |- *.
  unfold jwt_round_trip in Htoken. rewrite <- Hname in Htoken.
  exists (mkRequest (JwtUser.mk (User.id u) (User.username u))).
  split; [|split; [done|]; split; [done|]; split].
  - unfold AuthGuard, JwtStrategy.validate. rewrite Htok, Htoken. cbn.
    by rewrite Hfind.
  - intros db d rows. by eexists.
  - intros db d rows n.
    unfold DiscussionsController.addOperation, addOperation, bind, findOne,
      lift, throw, save, create. cbn.
    destruct (List.find _ rows) as [parent|]; cbn; [|done].
    destruct (calculateResult _ _ _) as [e|result]; cbn; [done|].
    by intros [= <-].
Qed.
End Auth.



Lemma sample_auth_env_sound : bcrypt_sound sample_auth_env.
Proof. intros users password. cbn. by rewrite bool_decide_eq_true_2. Qed.


Lemma register_then_login_witness :
  bcrypt_sound sample_auth_env ∧
  (AuthService.register sample_auth_env carol []).1 = inr carol_response ∧
  ∃ resp',
    (AuthService.login sample_auth_env (LoginDto.mk "carol" "secret1")
       (auth_run sample_auth_env sample_auth_calls
          (AuthService.register sample_auth_env carol []).2)).1 = inr resp' ∧
    AuthResponse.user resp' = AuthResponse.user carol_response.
Proof.
  split; [exact sample_auth_env_sound|]. split; [reflexivity|].
  destruct (register_then_login sample_auth_env carol [] carol_response
              sample_auth_calls sample_auth_env_sound eq_refl)
    as (resp' & Hlogin & Huser).
  exists resp'. split; [|exact Huser].
  exact (f_equal fst Hlogin).
Defined.

Lemma registered_user_authors_own_nodes_witness :
  (user_uuid sample_auth_env [] ∉ user_ids []) ∧
  (AuthService.register sample_auth_env carol []).1 = inr carol_response ∧
  jwt_round_trip sample_auth_env
    {| JwtPayload.username := "carol"; JwtPayload.sub := "u" |} ∧
  ∃ req,
    AuthGuard sample_auth_env "u"
      (auth_run sample_auth_env sample_auth_calls
         (AuthService.register sample_auth_env carol []).2) = inr req ∧
    JwtUser.userId (user req) = "u".
Proof.
  assert (Hfresh : user_uuid sample_auth_env [] ∉ user_ids [])
    by apply not_elem_of_nil.
  split; [exact Hfresh|]. split; [reflexivity|]. split; [reflexivity|].
  destruct (registered_user_authors_own_nodes sample_auth_env carol []
              carol_response sample_auth_calls Hfresh eq_refl eq_refl)
    as (req & Hguard & Hid & _).
  exists req. by split.
Defined.

(** * What the listing shows can be answered *)

Section Respond.
Context (db : Database).
Implicit Types (rows : list DiscussionNode) (n : DiscussionNode)
  (cs : list Call).

Lemma run_appends cs rows : ∃ new, run db cs rows = rows ++ new.
Proof.
  revert rows. induction cs as [|c cs IH]; intros rows.
  - exists []. by rewrite app_nil_r.
  - change (run db (c :: cs) rows) with (run db cs (handle db c rows)).
    destruct (handle_cases db c rows) as [->|(m & -> & _)]; [by apply IH|].
    destruct (IH (rows ++ [m])) as [new ->]. exists (m :: new).
    by rewrite <- app_assoc.
Qed.

(** X16: Every node the listing shows can be answered: when [find] answers the
    rows of the table, [addOperation] with the id of a node of the forest
    [getAllDiscussions] returned does not fail with NotFound, then or after
    any further requests. *)
Theorem listed_node_accepts_operation cs rows (f : Forest) n
    (userId : string) (op : Operation) (x : number) :
  lists_rows db →
  (getAllDiscussions db rows).1 = inr f →
  in_forest f n →
  ¬ NotFound (addOperation db userId (AddOperationDto.mk (id n) op x)
                (run db cs rows)).1.
Proof.
  intros Hlists [= <-] Hn%in_forest_elem_of.
  assert (Hin : without_author n ∈ without_author <$> rows)
    by (rewrite <- (Hlists rows); by apply list_elem_of_fmap_2).
  apply list_elem_of_fmap in Hin as (m & Heq & Hm).
  destruct (run_appends cs rows) as [new ->].
  destruct (proj1 (findOne_Some (id n) (rows ++ new))) as [p Hfind].
  { exists m. split; [apply elem_of_app; by left|].
    exact (f_equal id (eq_sym Heq)). }
  unfold addOperation, bind, findOne, lift, throw, save, create. cbn.
  rewrite Hfind. cbn.
  destruct (calculateResult (value p) op x) as [e|result] eqn:Hc; cbn.
  - intros [msg Hmsg].
    destruct (calculateResult_inl _ _ _ _ Hc) as [msg' ->]. discriminate Hmsg.
  - by intros [msg Hmsg].
Qed.
End Respond.

Lemma listed_node_accepts_operation_witness :
  lists_rows fresh_db ∧
  (getAllDiscussions fresh_db [first_node]).1
    = inr (buildForest [first_node]) ∧
  in_forest (buildForest [first_node]) first_node ∧
  ¬ NotFound (addOperation fresh_db "bob-id"
                (AddOperationDto.mk (id first_node) ADD 5)
                (run fresh_db sample_calls [first_node])).1.
Proof.
  assert (Hin : in_forest (buildForest [first_node]) first_node).
  { apply in_forest_iff. split; [|reflexivity].
    apply rooted_root; [apply list_elem_of_here | reflexivity]. }
  split; [exact fresh_db_lists|]. split; [reflexivity|]. split; [exact Hin|].
  exact (listed_node_accepts_operation fresh_db sample_calls [first_node]
           (buildForest [first_node]) first_node "bob-id" ADD 5
           fresh_db_lists eq_refl Hin).
Defined.

(** * Tokens of a login *)

Section LoginToken.
Context (env : AuthEnv).
Implicit Types (users : list User.t) (u : User.t) (cs : list AuthCall).

Lemma findById_NoDup users u :
  NoDup (user_ids users) → u ∈ users →
  UsersService.findById (User.id u) users = Some u.
Proof.
  unfold UsersService.findById, user_ids.
  induction users as [|v users IH]; [by intros _ ?%elem_of_nil|].
  rewrite fmap_cons. intros [Hv Hnd]%NoDup_cons [->|Hu]%elem_of_cons; cbn.
  - by rewrite bool_decide_eq_true_2.
  - rewrite bool_decide_eq_false_2; [by apply IH|].
    intros Heq. destruct Hv. rewrite Heq. by apply list_elem_of_fmap_2.
Qed.

(** X17: A user who posts with the token a login gave them is let through by
    the guard as themselves, whatever registrations and logins come in
    between, provided the user ids of the table were pairwise distinct at
    the login and the token reads back as its payload. *)
Theorem login_token_identifies_user (dto : LoginDto.t) users
    (resp : AuthResponse.t) cs :
  NoDup (user_ids users) →
  (AuthService.login env dto users).1 = inr resp →
  jwt_round_trip env
    {| JwtPayload.username := LoginDto.username dto;
       JwtPayload.sub := UserInfo.id (AuthResponse.user resp) |} →
  let users' := auth_run env cs users in
  ∃ req,
    AuthGuard env (AuthResponse.access_token resp) users' = inr req ∧
    JwtUser.userId (user req) = UserInfo.id (AuthResponse.user resp) ∧
    JwtUser.username (user req) = LoginDto.username dto.
Proof.
  intros Hnd Hlogin Htoken users'. unfold AuthService.login in Hlogin.
  destruct (UsersService.findByUsername _ users) as [u|] eqn:Hfind;
    [|discriminate Hlogin].
  apply find_some in Hfind as [Hu%list_elem_of_In Hname%bool_decide_eq_true].
  destruct (UsersService.validatePassword env u _); [|discriminate Hlogin].
  cbn in Hlogin. injection Hlogin as <-. cbn in Htoken |- *.
  unfold jwt_round_trip in Htoken. rewrite <- Hname in Htoken.
  exists (mkRequest (JwtUser.mk (User.id u) (User.username u))).
  split; [|by split].
  unfold AuthGuard, JwtStrategy.validate. rewrite Htoken. cbn.
  unfold users'. destruct (auth_run_appends env cs users) as [new ->].
  assert (Hid : UsersService.findById (User.id u) (users ++ new) = Some u)
    by (apply find_app_Some; by apply findById_NoDup).
  by rewrite Hid.
Qed.
End LoginToken.

Lemma login_token_identifies_user_witness :
  NoDup (user_ids (auth_run sample_auth_env [PostRegister carol] [])) ∧
  (AuthService.login sample_auth_env (LoginDto.mk "carol" "secret1")
     (auth_run sample_auth_env [PostRegister carol] [])).1
    = inr carol_response ∧
  jwt_round_trip sample_auth_env
    {| JwtPayload.username := "carol"; JwtPayload.sub := "u" |} ∧
  ∃ req,
    AuthGuard sample_auth_env "u"
      (auth_run sample_auth_env sample_auth_calls
         (auth_run sample_auth_env [PostRegister carol] [])) = inr req ∧
    JwtUser.userId (user req) = "u".
Proof.
  assert (Hnd : NoDup (user_ids (auth_run sample_auth_env [PostRegister carol] [])))
    by (apply NoDup_singleton).
  split; [exact Hnd|]. split; [reflexivity|]. split; [reflexivity|].
  destruct (login_token_identifies_user sample_auth_env
              (LoginDto.mk "carol" "secret1")
              (auth_run sample_auth_env [PostRegister carol] [])
              carol_response sample_auth_calls Hnd eq_refl eq_refl)
    as (req & Hguard & Hid & _).
  exists req. by split.
Defined.
